(** * Verification of [linguist_wrapper.py] (infra/github-linguist)

    A shallow embedding of the [LinguistWrapper] class: root detection,
    chunked line counting, the aggregation of the linguist breakdown into
    percentages and line counts, the classifier invocation and the
    [analyze_zip] pipeline with its temporary directory. *)

From Stdlib Require Import ZArith QArith Qabs Lia Lqa Ascii String.
From stdpp Require Import base gmap list strings pretty.


(* ------------------------------------------------------------------ *)
(** ** Binary64 arithmetic

    Python floats are IEEE binary64 numbers.  A float is represented by
    its exact rational value; [fl] rounds a rational to the nearest
    binary64 number (53-bit significand, ties to even).  The exponent
    range is not bounded: overflow and subnormals, which need sizes far
    beyond any file system, are not modelled. *)
Module F.
Local Open Scope Z_scope.

(** Round the non-negative rational [n / d] (with [d > 0]) to the
    nearest integer, ties to even. *)
Definition rne_div (n d : Z) : Z :=
  let m := n / d in
  let r := n mod d in
  if Z.ltb d (2 * r) then m + 1
  else if Z.eqb (2 * r) d then (if Z.odd m then m + 1 else m)
  else m.

(** [2 ^ k] as a rational, for any integer [k]. *)
Definition pow2 (k : Z) : Q :=
  if Z.leb 0 k then inject_Z (2 ^ k) else 1 # Z.to_pos (2 ^ (- k)).

(** [n / d >= 2 ^ k] for positive [n], [d]. *)
Definition ge_pow2 (n d k : Z) : bool :=
  Z.leb (d * 2 ^ (Z.max 0 k)) (n * 2 ^ (Z.max 0 (- k))).

(** The binade of [n / d]: the [E] with [2^E <= n/d < 2^(E+1)]. *)
Definition binade (n d : Z) : Z :=
  let L := Z.log2 n - Z.log2 d in
  if ge_pow2 n d L then L else L - 1.

(** Nearest binary64 value of [n / d], for positive [n] and [d]. *)
Definition fl_pos (n d : Z) : Q :=
  let e := binade n d - 52 in
  let N := n * 2 ^ (Z.max 0 (- e)) in
  let D := d * 2 ^ (Z.max 0 e) in
  inject_Z (rne_div N D) * pow2 e.

(** Nearest binary64 value of a rational. *)
Definition fl (q : Q) : Q :=
  let n := Qnum q in
  let d := Zpos (Qden q) in
  if Z.eqb n 0 then 0
  else if Z.ltb 0 n then fl_pos n d
  else - fl_pos (- n) d.

(** [float(i)] for a Python int. *)
Definition of_int (i : Z) : Q := fl (inject_Z i).
(** [a * b] and [a / b] on floats. *)
Definition mul (a b : Q) : Q := fl (a * b).
Definition div (a b : Q) : Q := fl (a / b).

(** Round a rational to the nearest integer, ties to even. *)
Definition rne (q : Q) : Z :=
  let n := Qnum q in
  let d := Zpos (Qden q) in
  if Z.leb 0 n then rne_div n d else - rne_div (- n) d.

(** Python's [round(x, 2)] on a float: the exact binary value is rounded
    to two decimals, ties to even, and the decimal is read back as the
    nearest float (CPython's [double_round]). *)
Definition round2 (x : Q) : Q := fl (inject_Z (rne (x * 100)) / 100).

(** Unit roundoff of binary64. *)
Definition u : Q := 1 # (2 ^ 53).

End F.

(* ------------------------------------------------------------------ *)
(** ** Exceptions raised along the pipeline *)
Inductive exn :=
| FileNotFoundError (msg : string)
| IsADirectoryError
| PermissionError
| NotADirectoryError
| FileExistsError
| BadZipFile
| CalledProcessError (returncode : Z)
| RuntimeError (msg : string)
| JSONDecodeError
| TypeError
| AttributeError.

(* ------------------------------------------------------------------ *)
(** ** File system

    A path is the list of its components from the file-system root; the
    file system maps paths to nodes.  [NDangling] is an entry that is
    neither a directory nor a regular file to [stat] (a dangling
    symbolic link). *)
Abbreviation path := (list string).

Inductive node :=
| NDir
| NFile (readable : bool) (contents : list Byte.byte)
| NDangling.

Abbreviation fsys := (gmap path node).

#[global] Instance byte_eq_dec : EqDecision Byte.byte := Byte.byte_eq_dec.

(** [str(p)] of a [pathlib.Path]. *)
Definition path_str (p : path) : string :=
  match p with
  | [] => "/"
  | _ => foldr (fun c acc => "/" +:+ c +:+ acc) "" p
  end.

(** Split a string argument of [Path.__truediv__] into components:
    empty and [.] components are dropped, as [pathlib] does. *)
Fixpoint split_slash (s : string) (cur : string) : list string :=
  match s with
  | EmptyString => [cur]
  | String c s' =>
      if Ascii.eqb c "/"%char then cur :: split_slash s' EmptyString
      else split_slash s' (cur +:+ String c EmptyString)
  end.

Definition path_parts (s : string) : list string :=
  filter (fun c => c <> "" /\ c <> ".") (split_slash s "").

Definition is_absolute (s : string) : bool :=
  match s with String c _ => Ascii.eqb c "/"%char | EmptyString => false end.

(** [repo_dir / f]: an absolute [f] replaces [repo_dir]. *)
Definition path_join (dir : path) (f : string) : path :=
  if is_absolute f then path_parts f else dir ++ path_parts f.

(** [Path.is_dir()] and [Path.is_file()] ([stat] follows links). *)
Definition node_is_dir (n : node) : bool :=
  match n with NDir => true | _ => false end.
Definition node_is_file (n : node) : bool :=
  match n with NFile _ _ => true | _ => false end.

Definition is_file (fs : fsys) (p : path) : bool :=
  match fs !! p with Some n => node_is_file n | None => false end.

(** Path resolution of [open]: every proper prefix must be a directory. *)
Fixpoint resolve_parents (fs : fsys) (pre rest : path) : option exn :=
  match rest with
  | [] | [_] => None
  | c :: rest' =>
      let pre' := pre ++ [c] in
      match fs !! pre' with
      | Some NDir => resolve_parents fs pre' rest'
      | Some (NFile _ _) => Some NotADirectoryError
      | _ => Some (FileNotFoundError "No such file or directory")
      end
  end.

(** [open(p, "rb")] for reading: the contents, or the exception raised. *)
Definition open_rb (fs : fsys) (p : path) : exn + list Byte.byte :=
  match resolve_parents fs [] p with
  | Some e => inl e
  | None =>
      match p with
      | [] => inl IsADirectoryError
      | _ =>
          match fs !! p with
          | None | Some NDangling => inl (FileNotFoundError "No such file or directory")
          | Some NDir => inl IsADirectoryError
          | Some (NFile false _) => inl PermissionError
          | Some (NFile true bs) => inr bs
          end
      end
  end.

(* ------------------------------------------------------------------ *)
(** ** [_count_lines] *)

(** [1 << 20] *)
Definition CHUNK_SIZE : nat := Nat.pow 2 20.

(** [chunk.count(b"\n")] *)
Definition count_nl (chunk : list Byte.byte) : nat :=
  length (filter (fun b => b = Byte.x0a) chunk).

(** [iter(lambda: f.read(n), b"")]: successive reads from the file
    position [pos] until a read returns [b""].  A read of a regular file
    returns [min n remaining] bytes; [fuel] bounds the iterations (one
    more than the file length is enough when [n > 0]). *)
Fixpoint read_chunks (fuel n : nat) (bs : list Byte.byte) (pos : nat)
  : list (list Byte.byte) :=
  match fuel with
  | O => []
  | S fuel' =>
      let chunk := firstn n (skipn pos bs) in
      match chunk with
      | [] => []
      | _ => chunk :: read_chunks fuel' n bs (pos + length chunk)
      end
  end.

Definition sum_nat (l : list nat) : nat := foldr Nat.add 0 l.

Definition count_lines (fs : fsys) (p : path) : exn + nat :=
  match open_rb fs p with
  | inr bs =>
      inr (sum_nat (map count_nl (read_chunks (S (length bs)) CHUNK_SIZE bs 0)))
  | inl IsADirectoryError | inl (FileNotFoundError _) | inl PermissionError => inr 0
  | inl e => inl e
  end.

(* ------------------------------------------------------------------ *)
(** ** [_detect_project_root] *)

(** The name of [k] when [k] is a direct child of [d]. *)
Fixpoint child_name (d k : path) : option string :=
  match d, k with
  | [], [x] => Some x
  | c :: d', c' :: k' => if String.eqb c c' then child_name d' k' else None
  | _, _ => None
  end.

(** [d.iterdir()]: the direct children of [d], in some order. *)
Definition iterdir (fs : fsys) (d : path) : list (string * node) :=
  omap (fun kv => match child_name d kv.1 with
                  | Some x => Some (x, kv.2)
                  | None => None
                  end) (map_to_list fs).

Definition detect_project_root (fs : fsys) (extract_dir : path) : path :=
  let entries := filter (fun e => e.1 <> "__MACOSX") (iterdir fs extract_dir) in
  let subdirs := filter (fun e => node_is_dir e.2 = true) entries in
  let files := filter (fun e => node_is_file e.2 = true) entries in
  match subdirs with
  | [(x, _)] => match files with [] => extract_dir ++ [x] | _ => extract_dir end
  | _ => extract_dir
  end.

(* ------------------------------------------------------------------ *)
(** ** The classifier report

    [json.loads] returns Python values; JSON numbers are integers here
    (linguist reports sizes as byte counts).  A decoded object is a
    Python dict, kept as its list of (key, value) pairs in order. *)
#[warnings="-register-all"]
Inductive json :=
| JNull
| JBool (b : bool)
| JInt (z : Z)
| JStr (s : string)
| JArr (l : list json)
| JObj (kvs : list (string * json)).

(** [not v] *)
Definition falsy (v : json) : bool :=
  match v with
  | JNull | JBool false | JInt 0%Z | JStr EmptyString | JArr [] | JObj [] => true
  | _ => false
  end.

Fixpoint assoc (k : string) (kvs : list (string * json)) : option json :=
  match kvs with
  | [] => None
  | (k', v) :: kvs' => if String.eqb k k' then Some v else assoc k kvs'
  end.

(** [v.get(k, default)]: only dicts have [get]. *)
Definition py_get (v : json) (k : string) (default : json) : exn + json :=
  match v with
  | JObj kvs => inr (match assoc k kvs with Some x => x | None => default end)
  | _ => inl AttributeError
  end.

(** A value used as a number by [sum] and [*]: ints, and bools as ints. *)
Definition py_int (v : json) : exn + Z :=
  match v with
  | JInt z => inr z
  | JBool b => inr (if b then 1%Z else 0%Z)
  | _ => inl TypeError
  end.

(** The elements met by [for f in files] that are passed to
    [repo_dir / f]: list elements, the characters of a string, the keys
    of a dict; any other value is not iterable. *)
Definition py_iter (v : json) : exn + list json :=
  match v with
  | JArr l => inr l
  | JStr s => inr (map (fun c => JStr (String c EmptyString)) (list_ascii_of_string s))
  | JObj kvs => inr (map (fun kv => JStr kv.1) kvs)
  | _ => inl TypeError
  end.

Definition bind_sum {A B} (m : exn + A) (k : A -> exn + B) : exn + B :=
  match m with inl e => inl e | inr a => k a end.

Notation "x <-? m ;; k" := (bind_sum m (fun x => k))
  (at level 100, m at next level, right associativity).

(** [info.get("size", 0)], used as a number. *)
Definition get_size (info : json) : exn + Z :=
  v <-? py_get info "size" (JInt 0) ;; py_int v.

(** [sum(item.get("size", 0) for item in breakdown_data.values())] *)
Fixpoint sum_sizes (items : list (string * json)) : exn + Z :=
  match items with
  | [] => inr 0%Z
  | (_, info) :: rest =>
      z <-? get_size info ;;
      t <-? sum_sizes rest ;;
      inr (z + t)%Z
  end.

(** [sum(self._count_lines(repo_dir / f) for f in files)] *)
Fixpoint sum_lines (fs : fsys) (repo_dir : path) (files : list json) : exn + nat :=
  match files with
  | [] => inr 0%nat
  | JStr f :: rest =>
      n <-? count_lines fs (path_join repo_dir f) ;;
      t <-? sum_lines fs repo_dir rest ;;
      inr (n + t)%nat
  | _ :: _ => inl TypeError
  end.

Record lang_stat := { percent : Q; lines : nat }.

(** [round(size * 100.0 / total_bytes, 2)] *)
Definition percent_of (size total : Z) : Q :=
  F.round2 (F.div (F.mul (F.of_int size) 100) (F.of_int total)).

(** The [for language, info in breakdown_data.items()] loop, filling
    [stats]. *)
Fixpoint stats_loop (fs : fsys) (repo_dir : path) (total : Z)
    (items : list (string * json)) (stats : gmap string lang_stat)
  : exn + gmap string lang_stat :=
  match items with
  | [] => inr stats
  | (language, info) :: rest =>
      fv <-? py_get info "files" (JArr []) ;;
      files <-? py_iter fv ;;
      ln <-? sum_lines fs repo_dir files ;;
      size <-? get_size info ;;
      let st := {| percent := percent_of size total; lines := ln |} in
      stats_loop fs repo_dir total rest (<[language := st]> stats)
  end.

(** The body of [_collect_language_stats] once the breakdown is decoded. *)
Definition aggregate (fs : fsys) (repo_dir : path) (breakdown_data : json)
  : exn + gmap string lang_stat :=
  if falsy breakdown_data then inl (RuntimeError "github-linguist returned empty result")
  else
    match breakdown_data with
    | JObj items =>
        s <-? sum_sizes items ;;
        let total_bytes := if Z.eqb s 0 then 1%Z else s in
        stats_loop fs repo_dir total_bytes items ∅
    | _ => inl AttributeError
    end.

(* ------------------------------------------------------------------ *)
(** ** The outside world

    The archive format, the external processes ([git], [github-linguist],
    [docker]), the JSON decoder and the random names of [tempfile] are
    not code of this repository: they are the fields of [env]. *)

(** A member of a ZIP archive, as [zipfile] reads it. *)
Inductive member :=
| MDir
| MFile (contents : list Byte.byte).

(** [subprocess.run(..., capture_output=True, text=True)]: the exit code,
    the captured output, and the file system when the process is done. *)
Record proc_result := {
  returncode : Z;
  stdout : string;
  stderr : string;
  fs_after : fsys
}.

Record env := {
  (** [tempfile.gettempdir()] *)
  tmp_root : path;
  (** The candidate names drawn by [tempfile]'s name sequence. *)
  tmp_name : nat -> string;
  (** The members of an archive, with their stored names split into
      components; [None] when [zipfile] raises [BadZipFile]. *)
  zip_members : list Byte.byte -> option (list (list string * member));
  (** Running a command in a working directory; [inl] when the process
      cannot be started. *)
  subprocess_run : list string -> option path -> fsys -> exn + proc_result;
  (** [json.loads]; [None] when it raises [JSONDecodeError]. *)
  json_loads : string -> option json;
  (** [st_uid] and [st_gid] of a path. *)
  stat_ids : path -> Z * Z
}.

(** The attributes set by [LinguistWrapper.__init__]. *)
Record wrapper := {
  use_docker : bool;
  linguist_cmd : string;
  docker_image : string
}.

Definition default_wrapper : wrapper :=
  {| use_docker := false; linguist_cmd := "github-linguist"; docker_image := "linguist" |}.

(* ------------------------------------------------------------------ *)
(** ** State and exceptions *)

Record state := {
  st_fs : fsys;
  (** Position in [tempfile]'s name sequence. *)
  st_names : nat
}.

Definition M (A : Type) : Type := state -> state * (exn + A).

Definition ret {A} (a : A) : M A := fun s => (s, inr a).
Definition raise {A} (e : exn) : M A := fun s => (s, inl e).
Definition bind {A B} (m : M A) (k : A -> M B) : M B :=
  fun s => match m s with
           | (s', inl e) => (s', inl e)
           | (s', inr a) => k a s'
           end.
Definition lift {A} (r : exn + A) : M A := fun s => (s, r).
Definition get_fs : M fsys := fun s => (s, inr (st_fs s)).
Definition put_fs (fs : fsys) : M unit :=
  fun s => ({| st_fs := fs; st_names := st_names s |}, inr tt).

Notation "x <- m ;; k" := (bind m (fun x => k))
  (at level 100, m at next level, right associativity).

Section Pipeline.
Variable E : env.
Variable w : wrapper.

(** [os.mkdir(name, 0o700)] retried over the random names, up to
    [tempfile.TMP_MAX] = 10000 attempts ([tempfile.mkdtemp]). *)
Fixpoint mkdtemp_loop (fuel : nat) : M path :=
  match fuel with
  | O => raise FileExistsError
  | S fuel' => fun s =>
      let p := tmp_root E ++ [tmp_name E (st_names s)] in
      let s1 := {| st_fs := st_fs s; st_names := S (st_names s) |} in
      match st_fs s !! p with
      | None => ({| st_fs := <[p := NDir]> (st_fs s); st_names := st_names s1 |}, inr p)
      | Some _ => mkdtemp_loop fuel' s1
      end
  end.

(** [tempfile.TMP_MAX] *)
Definition TMP_MAX : nat := Nat.mul 100 100.

Definition mkdtemp : M path := mkdtemp_loop TMP_MAX.

(** [shutil.rmtree(p)]: [p] and everything under it. *)
Definition rmtree (p : path) (fs : fsys) : fsys :=
  filter (fun kv => ~ (p `prefix_of` kv.1)) fs.

(** [with tempfile.TemporaryDirectory() as tmpdir: body]: the directory
    is removed when the body returns or raises. *)
Definition with_tempdir {A} (body : path -> M A) : M A :=
  fun s =>
    match mkdtemp s with
    | (s1, inl e) => (s1, inl e)
    | (s1, inr t) =>
        let '(s2, r) := body t s1 in
        ({| st_fs := rmtree t (st_fs s2); st_names := st_names s2 |}, r)
    end.

(** [zipfile]'s [_extract_member] drops empty, [.] and [..]
    components of a member name. *)
Definition sanitize (parts : list string) : list string :=
  filter (fun c => c <> "" /\ c <> "." /\ c <> "..") parts.

(** [os.makedirs(p, exist_ok=True)] for the parents of a member. *)
Fixpoint makedirs (fs : fsys) (pre rest : path) : exn + fsys :=
  match rest with
  | [] => inr fs
  | c :: rest' =>
      let pre' := pre ++ [c] in
      match fs !! pre' with
      | Some NDir => makedirs fs pre' rest'
      | Some _ => inl FileExistsError
      | None => makedirs (<[pre' := NDir]> fs) pre' rest'
      end
  end.

(** Writing one member below [dest]. *)
Definition extract_member (dest : path) (fs : fsys) (m : list string * member)
  : exn + fsys :=
  let target := dest ++ sanitize m.1 in
  fs1 <-? makedirs fs [] (removelast target) ;;
  match m.2 with
  | MDir =>
      match fs1 !! target with
      | Some NDir => inr fs1
      | Some _ => inl FileExistsError
      | None => inr (<[target := NDir]> fs1)
      end
  | MFile bs =>
      match fs1 !! target with
      | Some NDir => inl IsADirectoryError
      | _ => inr (<[target := NFile true bs]> fs1)
      end
  end.

Fixpoint extract_all (dest : path) (fs : fsys) (ms : list (list string * member))
  : exn + fsys :=
  match ms with
  | [] => inr fs
  | m :: ms' => fs1 <-? extract_member dest fs m ;; extract_all dest fs1 ms'
  end.

(** [with zipfile.ZipFile(zip_path) as zf: zf.extractall(tmpdir_path)] *)
Definition unzip (zip_path dest : path) : M unit :=
  fs <- get_fs ;;
  bs <- lift (open_rb fs zip_path) ;;
  ms <- lift (match zip_members E bs with Some ms => inr ms | None => inl BadZipFile end) ;;
  fs' <- lift (extract_all dest fs ms) ;;
  put_fs fs'.

(** [run_git]: [subprocess.run(cmd, cwd=repo_path, ..., check=True)] *)
Definition run_git (repo_path : path) (cmd : list string) : M unit :=
  fs <- get_fs ;;
  res <- lift (subprocess_run E cmd (Some repo_path) fs) ;;
  _ <- put_fs (fs_after res) ;;
  if Z.eqb (returncode res) 0 then ret tt
  else raise (CalledProcessError (returncode res)).

Definition init_git_repo (repo_path : path) : M unit :=
  _ <- run_git repo_path ["git"; "init"; "-q"] ;;
  _ <- run_git repo_path ["git"; "add"; "-A"] ;;
  run_git repo_path ["git"; "-c"; "user.name=linguist"; "-c";
                     "user.email=linguist@example.com";
                     "commit"; "-m"; "Initial commit"; "-q"].

(** [os.stat(repo_dir)] *)
Definition os_stat (p : path) : M (Z * Z) :=
  fs <- get_fs ;;
  match fs !! p with
  | Some NDir | Some (NFile _ _) => ret (stat_ids E p)
  | _ => raise (FileNotFoundError "No such file or directory")
  end.

(** The command line and working directory of [_execute_linguist]. *)
Definition linguist_command (args : list string) (repo_dir : path)
  : M (list string * option path) :=
  if use_docker w then
    ids <- os_stat repo_dir ;;
    ret (["docker"; "run"; "--rm";
          "--user"; pretty ids.1 +:+ ":" +:+ pretty ids.2;
          "-v"; path_str repo_dir +:+ ":/repo:ro";
          "-w"; "/repo";
          docker_image w] ++ args, None)
  else ret (linguist_cmd w :: args, Some repo_dir).

Definition linguist_failure (code : Z) (err : string) : string :=
  "github-linguist failed with code " +:+ pretty code +:+ ": " +:+ err.

Definition execute_linguist (args : list string) (repo_dir : path) : M string :=
  c <- linguist_command args repo_dir ;;
  fs <- get_fs ;;
  result <- lift (subprocess_run E c.1 c.2 fs) ;;
  _ <- put_fs (fs_after result) ;;
  if negb (Z.eqb (returncode result) 0)
  then raise (RuntimeError (linguist_failure (returncode result) (stderr result)))
  else ret (stdout result).

Definition run_linguist_breakdown (repo_dir : path) : M json :=
  output <- execute_linguist ["--breakdown"; "--json"; "."] repo_dir ;;
  lift (match json_loads E output with Some v => inr v | None => inl JSONDecodeError end).

Definition collect_language_stats (repo_dir : path) : M (gmap string lang_stat) :=
  breakdown_data <- run_linguist_breakdown repo_dir ;;
  fs <- get_fs ;;
  lift (aggregate fs repo_dir breakdown_data).

Definition analyze_zip (zip_path : path) : M (gmap string lang_stat) :=
  fs <- get_fs ;;
  if negb (is_file fs zip_path)
  then raise (FileNotFoundError ("File not found: " +:+ path_str zip_path))
  else
    with_tempdir (fun tmpdir_path =>
      _ <- unzip zip_path tmpdir_path ;;
      fs1 <- get_fs ;;
      let project_root := detect_project_root fs1 tmpdir_path in
      _ <- init_git_repo project_root ;;
      collect_language_stats project_root).

End Pipeline.

(* ------------------------------------------------------------------ *)
(** ** A concrete world: the end-to-end scenario of the documentation *)
Module Scenario.

Definition line (n : nat) : list Byte.byte := repeat Byte.x0a n.

Definition archive : list Byte.byte := [Byte.x50; Byte.x4b].

Definition report : json :=
  JObj [("Python", JObj [("size", JInt 250); ("files", JArr [JStr "main.py"])]);
        ("JavaScript", JObj [("size", JInt 750); ("files", JArr [JStr "lib.js"])])].

(** A world in which [git] succeeds, and linguist exits with [code],
    printing [out] and [err]; [json.loads] decodes ["REPORT"]. *)
Definition world (code : Z) (out err : string) (rep : json) : env := {|
  tmp_root := ["tmp"];
  tmp_name := fun n => "tmp" +:+ pretty (N.of_nat n);
  zip_members := fun bs =>
    if decide (bs = archive) then
      Some [(["project"; "main.py"], MFile (line 10));
            (["project"; "lib.js"], MFile (line 30))]
    else None;
  subprocess_run := fun cmd cwd fs =>
    match cmd with
    | "git" :: _ =>
        inr {| returncode := 0; stdout := ""; stderr := "";
               fs_after := match cwd with
                           | Some d => <[d ++ [".git"] := NDir]> fs
                           | None => fs end |}
    | _ => inr {| returncode := code; stdout := out; stderr := err; fs_after := fs |}
    end;
  json_loads := fun o => if String.eqb o "REPORT" then Some rep else None;
  stat_ids := fun _ => (1000%Z, 1000%Z)
|}.

Definition zip_path : path := ["home"; "u"; "project.zip"].

Definition start : state :=
  {| st_fs := {[ ["home"] := NDir; ["home"; "u"] := NDir; zip_path := NFile true archive;
                 ["tmp"] := NDir ]};
     st_names := 0 |}.

Definition run (w : wrapper) (E : env) : state * (exn + gmap string lang_stat) :=
  analyze_zip E w zip_path start.

(** Worlds in which linguist succeeds with [report], or exits with code 2. *)
Definition ok_world : env := world 0 "REPORT" "" report.
Definition fail_world : env := world 2 "" "boom" report.

Definition docker_wrapper : wrapper :=
  {| use_docker := true; linguist_cmd := "github-linguist"; docker_image := "linguist" |}.

(** An already prepared repository [/r]. *)
Definition repo : path := ["r"].
Definition repo_state : state :=
  {| st_fs := {[ ["r"] := NDir; ["r"; "main.py"] := NFile true (line 10);
                 ["r"; "lib.js"] := NFile true (line 30) ]};
     st_names := 0 |}.

Definition docker_cmd : list string * option path :=
  (["docker"; "run"; "--rm"; "--user"; "1000:1000"; "-v"; "/r:/repo:ro";
    "-w"; "/repo"; "linguist"; "--breakdown"; "--json"; "."], None).
Definition local_cmd : list string * option path :=
  (["github-linguist"; "--breakdown"; "--json"; "."], Some repo).

Definition fail_result : proc_result :=
  {| returncode := 2; stdout := ""; stderr := "boom"; fs_after := st_fs repo_state |}.
Definition ok_result : proc_result :=
  {| returncode := 0; stdout := "REPORT"; stderr := ""; fs_after := st_fs repo_state |}.

(** The first temporary directory of [start]. *)
Definition tmp0 : path := ["tmp"; "tmp0"].
Definition start_tmp : state :=
  {| st_fs := <[tmp0 := NDir]> (st_fs start); st_names := 1 |}.

(** A report whose first entry has neither ["size"] nor ["files"]. *)
Definition sparse_items : list (string * json) :=
  [("A", JObj []); ("B", JObj [("size", JInt 5)])].

(** A world in which every command succeeds, prints ["REPORT"] and
    creates [.git] in its working directory. *)
Definition git_world : env := {|
  tmp_root := ["tmp"];
  tmp_name := fun n => "tmp" +:+ pretty (N.of_nat n);
  zip_members := zip_members ok_world;
  subprocess_run := fun cmd cwd fs =>
    inr {| returncode := 0; stdout := "REPORT"; stderr := "";
           fs_after := match cwd with
                       | Some d => <[d ++ [".git"] := NDir]> fs
                       | None => fs end |};
  json_loads := json_loads ok_world;
  stat_ids := stat_ids ok_world
|}.


(** [/tmp], the archive [/a.zip] and a file [/b.zip] that is no archive. *)
Definition flat_start : state :=
  {| st_fs := {[ ["tmp"] := NDir; ["a.zip"] := NFile true archive;
                 ["b.zip"] := NFile true [Byte.x00] ]};
     st_names := 0 |}.

End Scenario.

(* ================================================================== *)
(** * Auxiliary definitions of the statements *)

(** The arguments of the breakdown run of linguist. *)
Definition BREAKDOWN_ARGS : list string := ["--breakdown"; "--json"; "."].

(** A two-language report with sizes [a] and [b]. *)
Definition tie_report (a b : Z) : json :=
  JObj [("A", JObj [("size", JInt a)]); ("B", JObj [("size", JInt b)])].

(** The percentage computed for language ["A"] of a report. *)
Definition percent_A (v : json) : option Q :=
  match aggregate ∅ [] v with
  | inr stats => option_map percent (stats !! "A")
  | inl _ => None
  end.

(** [info.get("size", 0)] when the size is an integer or absent. *)
Definition size_or_zero (info : json) : Z :=
  match info with
  | JObj kvs => match assoc "size" kvs with Some (JInt z) => z | _ => 0%Z end
  | _ => 0%Z
  end.

(** The exact quotient [size * 100 / total]. *)
Definition exact_percent (size total : Z) : Q := inject_Z size * (100 / inject_Z total).

(** The sum of the percentages of a result. *)
Definition total_percent (stats : gmap string lang_stat) : Q :=
  map_fold (fun _ st acc => Qred (percent st + acc)) 0%Q stats.

(** [n] languages of one byte each. *)
Definition equal_report (n : nat) : json :=
  JObj (map (fun i => ("L" +:+ pretty (N.of_nat i), JObj [("size", JInt 1)])) (seq 0 n)).

(** [fs] and [fs0] agree on every path that is not [t] or below [t]. *)
Definition agree_outside (t : path) (fs fs0 : fsys) : Prop :=
  forall k, ~ t `prefix_of` k -> fs !! k = fs0 !! k.

(** Every proper ancestor of a path of [fs] is a directory of [fs]. *)
Definition parent_closed (fs : fsys) : Prop :=
  forall k r v, fs !! (k ++ r) = Some v -> k <> [] -> r <> [] -> fs !! k = Some NDir.

(** The processes of the world write only below their working directory,
    and nowhere when they run without one. *)
Definition writes_below_cwd (E : env) : Prop :=
  forall cmd cwd fs res, subprocess_run E cmd cwd fs = inr res ->
    forall k, (forall d, cwd = Some d -> ~ d `prefix_of` k) -> fs_after res !! k = fs !! k.


(* ================================================================== *)
(** * Properties *)

(** The documented end-to-end scenario. *)
Example scenario_result :
  match snd (Scenario.run default_wrapper
               (Scenario.world 0 "REPORT" "" Scenario.report)) with
  | inr stats =>
      stats !! "Python" = Some {| percent := F.fl 25; lines := 10 |} /\
      stats !! "JavaScript" = Some {| percent := F.fl 75; lines := 30 |}
  | inl _ => False
  end.
Proof. vm_compute. split; reflexivity. Qed.

Example scenario_cleanup :
  st_fs (fst (Scenario.run default_wrapper
                (Scenario.world 0 "REPORT" "" Scenario.report)))
  = st_fs Scenario.start.
Proof. vm_compute. reflexivity. Qed.

Section PipelineFacts.
Variable E : env.
Variable w : wrapper.

Lemma bind_inl {A B} (m : M A) (k : A -> M B) s s' e :
  m s = (s', inl e) -> bind m k s = (s', inl e).
Proof. unfold bind. intros ->. reflexivity. Qed.


(** After [with_tempdir], nothing is left below the directory it
    created, whatever the body did. *)
Lemma with_tempdir_removes {A} (body : path -> M A) s s1 t :
  mkdtemp E s = (s1, inr t) ->
  forall k, t `prefix_of` k -> st_fs (fst (with_tempdir E body s)) !! k = None.
Proof.
  intros Hmk k Hk. unfold with_tempdir. rewrite Hmk.
  destruct (body t s1) as [s2 r]. simpl. unfold rmtree.
  apply map_lookup_filter_None. right. intros n _. simpl. tauto.
Qed.


End PipelineFacts.

(** C6: when the input path does not name an existing regular file,
    [analyze_zip] raises [FileNotFoundError] at once and leaves the state
    untouched: no temporary directory is created, no name is drawn. *)
Theorem analyze_zip_not_found (E : env) (w : wrapper) (p : path) (s : state)
  (Hnf : is_file (st_fs s) p = false) :
  analyze_zip E w p s = (s, inl (FileNotFoundError ("File not found: " +:+ path_str p))).
Proof. unfold analyze_zip, bind, get_fs. simpl. rewrite Hnf. reflexivity. Qed.

(** C9: once [analyze_zip] has created its temporary directory [t], no
    path at or below [t] exists when it returns, whatever the outcome. *)
Theorem analyze_zip_cleans_up (E : env) (w : wrapper) (p : path) (s s1 : state) (t : path)
  (Hfile : is_file (st_fs s) p = true)
  (Hmk : mkdtemp E s = (s1, inr t)) :
  forall k, t `prefix_of` k -> st_fs (fst (analyze_zip E w p s)) !! k = None.
Proof.
  unfold analyze_zip at 1, bind at 1, get_fs at 1. simpl. rewrite Hfile. simpl.
  apply (with_tempdir_removes E _ s s1 t Hmk).
Qed.

(* ------------------------------------------------------------------ *)
(** ** Root detection *)

Lemma child_name_spec (d k : path) (x : string) :
  child_name d k = Some x <-> k = d ++ [x].
Proof.
  revert k. induction d as [|c d IH]; intros k; destruct k as [|c' k]; simpl.
  - split; discriminate.
  - destruct k; split; intros H; try discriminate; try inversion H; subst; auto.
  - split; intros H; discriminate.
  - destruct (String.eqb_spec c c') as [->|Hne].
    + rewrite IH. split; [intros ->|intros H; inversion H]; auto.
    + split; [discriminate|intros H; inversion H; congruence].
Qed.

(** [iterdir] lists exactly the direct children of [d]. *)
Lemma iterdir_spec (fs : fsys) (d : path) (x : string) (n : node) :
  (x, n) ∈ iterdir fs d <-> fs !! (d ++ [x]) = Some n.
Proof.
  unfold iterdir. rewrite list_elem_of_omap. split.
  - intros [[k v] [Hin Hc]]. simpl in Hc.
    destruct (child_name d k) as [y|] eqn:Hy; [|discriminate].
    inversion Hc; subst. apply child_name_spec in Hy. subst.
    by apply elem_of_map_to_list.
  - intros Hl. exists (d ++ [x], n). split.
    + by apply elem_of_map_to_list.
    + simpl. assert (child_name d (d ++ [x]) = Some x) as -> by (by apply child_name_spec).
      reflexivity.
Qed.

Lemma filter_all_true {A} (P : A -> Prop) `{!forall a, Decision (P a)} (l : list A) :
  Forall P l -> filter P l = l.
Proof.
  induction 1 as [|a l Ha _ IH]; [reflexivity|].
  rewrite filter_cons_True by exact Ha. by rewrite IH.
Qed.

(** C1: the root is the only subdirectory when, [__MACOSX] aside, the
    extraction directory holds exactly one subdirectory and no file;
    otherwise it is the extraction directory.  With only directories and
    regular files at the top (what [extractall] writes), several entries
    or any file keep the extraction directory. *)
Theorem detect_project_root_rule (fs : fsys) (d : path) :
  let entries := filter (fun e => e.1 <> "__MACOSX") (iterdir fs d) in
  let subdirs := filter (fun e => node_is_dir e.2 = true) entries in
  let files := filter (fun e => node_is_file e.2 = true) entries in
  (forall x, map fst subdirs = [x] -> files = [] ->
     detect_project_root fs d = d ++ [x] /\ x <> "__MACOSX" /\
     fs !! (d ++ [x]) = Some NDir) /\
  (length subdirs <> 1%nat \/ files <> [] -> detect_project_root fs d = d) /\
  (Forall (fun e => node_is_dir e.2 = true \/ node_is_file e.2 = true) entries ->
   (2 <= length entries)%nat \/ files <> [] -> detect_project_root fs d = d).
Proof.
  intros entries subdirs files.
  assert (Hsecond : length subdirs <> 1%nat \/ files <> [] -> detect_project_root fs d = d).
  { unfold detect_project_root. fold entries subdirs files.
    intros [Hl|Hf].
    - destruct subdirs as [|[x n] [|]]; simpl in Hl; try reflexivity. lia.
    - destruct subdirs as [|[x n] [|]]; try reflexivity.
      destruct files; [congruence|reflexivity]. }
  split; [|split; [exact Hsecond|]].
  - intros x Hx Hf.
    destruct subdirs as [|[x' n] [|]] eqn:Hs; simpl in Hx; try discriminate.
    inversion Hx; subst x'.
    assert (Hin : (x, n) ∈ subdirs) by (rewrite Hs; left).
    unfold subdirs in Hin. apply list_elem_of_filter in Hin as [Hdir Hin].
    unfold entries in Hin. apply list_elem_of_filter in Hin as [Hmac Hin].
    apply iterdir_spec in Hin. simpl in Hdir, Hmac.
    destruct n; try discriminate.
    split; [|split; [exact Hmac|exact Hin]].
    unfold detect_project_root. fold entries subdirs files. rewrite Hs, Hf. reflexivity.
  - intros Hall [Hlen|Hf]; [|apply Hsecond; right; exact Hf].
    destruct files as [|f fl] eqn:Hf; [|apply Hsecond; right; discriminate].
    apply Hsecond. left.
    assert (Hsub : subdirs = entries).
    { unfold subdirs. apply filter_all_true. apply Forall_forall.
      intros [y m] Hin. rewrite Forall_forall in Hall.
      destruct (Hall _ Hin) as [Hd|Hfi]; [exact Hd|].
      exfalso. assert (Hinf : (y, m) ∈ files).
      { unfold files. apply list_elem_of_filter. split; [exact Hfi|exact Hin]. }
      rewrite Hf in Hinf. set_solver. }
    rewrite Hsub. lia.
Qed.

(* ------------------------------------------------------------------ *)
(** ** Line counting *)

Lemma count_nl_app (l1 l2 : list Byte.byte) :
  count_nl (l1 ++ l2) = (count_nl l1 + count_nl l2)%nat.
Proof. unfold count_nl. by rewrite filter_app, length_app. Qed.

(** Reading in chunks of any positive size counts the newlines of the
    rest of the file, wherever the chunk boundaries fall. *)
Lemma read_chunks_count (fuel n : nat) (bs : list Byte.byte) (pos : nat) :
  (0 < n)%nat -> (length bs - pos < fuel)%nat ->
  sum_nat (map count_nl (read_chunks fuel n bs pos)) = count_nl (skipn pos bs).
Proof.
  intros Hn. revert pos. induction fuel as [|fuel IH]; intros pos Hf; [lia|].
  simpl. destruct (firstn n (skipn pos bs)) as [|b c] eqn:Hc.
  - destruct (skipn pos bs) as [|b l] eqn:Hs; [reflexivity|].
    destruct n; [lia|]. discriminate.
  - rewrite <- Hc. simpl. rewrite IH.
    + assert (Heq : skipn (pos + length (firstn n (skipn pos bs))) bs
                    = skipn n (skipn pos bs)).
      { rewrite skipn_skipn, length_firstn, length_skipn.
        destruct (Nat.le_ge_cases n (length bs - pos)) as [Hle|Hge].
        - rewrite Nat.min_l by exact Hle. f_equal. lia.
        - rewrite Nat.min_r by exact Hge.
          rewrite !skipn_all2 by lia. reflexivity. }
      rewrite Heq, <- count_nl_app, firstn_skipn. reflexivity.
    + assert (length (b :: c) > 0)%nat by (simpl; lia).
      rewrite <- Hc in H. rewrite length_firstn, length_skipn in H |- *. lia.
Qed.

Lemma read_file_count (n : nat) (bs : list Byte.byte) :
  (0 < n)%nat ->
  sum_nat (map count_nl (read_chunks (S (length bs)) n bs 0)) = count_nl bs.
Proof. intros Hn. rewrite read_chunks_count by lia. reflexivity. Qed.

(** [open] raises only these four exceptions. *)
Lemma open_rb_errors (fs : fsys) (p : path) (e : exn) :
  open_rb fs p = inl e ->
  e = FileNotFoundError "No such file or directory" \/ e = IsADirectoryError \/
  e = PermissionError \/ e = NotADirectoryError.
Proof.
  unfold open_rb.
  assert (Hr : forall pre, match resolve_parents fs pre p with
                          | Some e' => e' = FileNotFoundError "No such file or directory" \/
                                       e' = NotADirectoryError
                          | None => True end).
  { induction p as [|c p IH]; intros pre; [exact I|].
    simpl. destruct p as [|c2 p']; [exact I|].
    destruct (fs !! (pre ++ [c])) as [[| |]|]; auto. apply IH. }
  specialize (Hr []). destruct (resolve_parents fs [] p) as [e'|].
  - intros H. inversion H; subst. tauto.
  - destruct p; [intros H; inversion H; auto|].
    destruct (fs !! (s :: p)) as [[|[|] bs|]|]; intros H; inversion H; auto.
Qed.

(** C3 (as amended): when the file opens, its line count is the number
    of its newline bytes, and reading in chunks of any positive size gives
    the same number; when [open] raises [FileNotFoundError] (a missing
    path), [IsADirectoryError] or [PermissionError], the path counts zero
    lines; [open]'s remaining error, [NotADirectoryError] (a path through a
    regular file), propagates. *)
Theorem count_lines_spec (fs : fsys) (p : path) :
  (forall bs, open_rb fs p = inr bs ->
     count_lines fs p = inr (count_nl bs) /\
     forall n, (0 < n)%nat -> sum_nat (map count_nl (read_chunks (S (length bs)) n bs 0)) = count_nl bs) /\
  (forall msg, open_rb fs p = inl (FileNotFoundError msg) -> count_lines fs p = inr 0%nat) /\
  (open_rb fs p = inl IsADirectoryError -> count_lines fs p = inr 0%nat) /\
  (open_rb fs p = inl PermissionError -> count_lines fs p = inr 0%nat) /\
  (open_rb fs p = inl NotADirectoryError -> count_lines fs p = inl NotADirectoryError).
Proof.
  unfold count_lines.
  split; [|split; [|split; [|split]]]; intros; repeat match goal with H : open_rb _ _ = _ |- _ => rewrite H end;
    try reflexivity.
  split.
  - rewrite read_file_count by (unfold CHUNK_SIZE; apply Nat.neq_0_lt_0, Nat.pow_nonzero; lia).
    reflexivity.
  - intros n Hn. by apply read_file_count.
Qed.

(** C3 counterexample: the path ["r"; "main.py"; "x"] is missing, yet
    counting its lines raises [NotADirectoryError] instead of giving 0. *)
Lemma count_lines_missing_below_file :
  let fs : fsys := {[ ["r"] := NDir; ["r"; "main.py"] := NFile true [Byte.x0a] ]} in
  fs !! ["r"; "main.py"; "x"] = None /\
  count_lines fs ["r"; "main.py"; "x"] = inl NotADirectoryError.
Proof. vm_compute. split; reflexivity. Qed.

(* ------------------------------------------------------------------ *)
(** ** Aggregation *)

Section Aggregation.
Variable fs : fsys.
Variable repo_dir : path.

Lemma stats_loop_other (total : Z) (items : list (string * json))
    (m m' : gmap string lang_stat) (k : string) :
  stats_loop fs repo_dir total items m = inr m' ->
  k ∉ map fst items -> m' !! k = m !! k.
Proof.
  revert m. induction items as [|[l info] items IH]; intros m H Hk; simpl in H.
  - inversion H. reflexivity.
  - destruct (py_get info "files" (JArr [])) as [|fv]; [discriminate|]. simpl in H.
    destruct (py_iter fv) as [|files]; [discriminate|]. simpl in H.
    destruct (sum_lines fs repo_dir files) as [|ln]; [discriminate|]. simpl in H.
    destruct (get_size info) as [|size]; [discriminate|]. simpl in H.
    simpl in Hk. apply not_elem_of_cons in Hk as [Hne Hk].
    rewrite (IH _ H Hk). by rewrite lookup_insert_ne by congruence.
Qed.

Lemma stats_loop_dom (total : Z) (items : list (string * json))
    (m m' : gmap string lang_stat) :
  stats_loop fs repo_dir total items m = inr m' ->
  dom m' = dom m ∪ list_to_set (map fst items).
Proof.
  revert m. induction items as [|[l info] items IH]; intros m H; simpl in H.
  - inversion H. set_solver.
  - destruct (py_get info "files" (JArr [])) as [|fv]; [discriminate|]. simpl in H.
    destruct (py_iter fv) as [|files]; [discriminate|]. simpl in H.
    destruct (sum_lines fs repo_dir files) as [|ln]; [discriminate|]. simpl in H.
    destruct (get_size info) as [|size]; [discriminate|]. simpl in H.
    rewrite (IH _ H), dom_insert_L. simpl. set_solver.
Qed.

(** Each entry of the report is stored with the percentage and the line
    count computed from its own fields. *)
Lemma stats_loop_lookup (total : Z) (items : list (string * json))
    (m m' : gmap string lang_stat) (lang : string) (info : json) :
  NoDup (map fst items) ->
  stats_loop fs repo_dir total items m = inr m' ->
  (lang, info) ∈ items ->
  exists size fv files ln,
    get_size info = inr size /\
    py_get info "files" (JArr []) = inr fv /\ py_iter fv = inr files /\
    sum_lines fs repo_dir files = inr ln /\
    m' !! lang = Some {| percent := percent_of size total; lines := ln |}.
Proof.
  revert m. induction items as [|[l i] items IH]; intros m Hnd H Hin; simpl in H.
  - apply elem_of_nil in Hin. contradiction.
  - simpl in Hnd. apply NoDup_cons in Hnd as [Hl Hnd].
    destruct (py_get i "files" (JArr [])) as [|fv] eqn:Hfv; [discriminate|]. simpl in H.
    destruct (py_iter fv) as [|files] eqn:Hfi; [discriminate|]. simpl in H.
    destruct (sum_lines fs repo_dir files) as [|ln] eqn:Hln; [discriminate|]. simpl in H.
    destruct (get_size i) as [|size] eqn:Hsz; [discriminate|]. simpl in H.
    apply elem_of_cons in Hin as [Heq|Hin].
    + inversion Heq; subst l i.
      exists size, fv, files, ln. repeat split; try assumption.
      rewrite (stats_loop_other _ _ _ _ _ H Hl). by rewrite lookup_insert_eq.
    + exact (IH _ Hnd H Hin).
Qed.

Lemma sum_sizes_ok (items : list (string * json)) :
  (forall lang info, (lang, info) ∈ items -> exists z, get_size info = inr z) ->
  exists s, sum_sizes items = inr s.
Proof.
  induction items as [|[l i] items IH]; intros Hall; simpl; [eauto|].
  destruct (Hall l i (list_elem_of_here _ _)) as [z ->]. simpl.
  destruct IH as [t ->]; [intros; eapply Hall; by apply list_elem_of_further|].
  simpl. eauto.
Qed.

Lemma sum_lines_ok (files : list string) :
  (forall f, f ∈ files -> exists n, count_lines fs (path_join repo_dir f) = inr n) ->
  exists ln, sum_lines fs repo_dir (map JStr files) = inr ln.
Proof.
  induction files as [|f files IH]; intros Hall; simpl; [eauto|].
  destruct (Hall f (list_elem_of_here _ _)) as [n ->]. simpl.
  destruct IH as [t ->]; [intros; eapply Hall; by apply list_elem_of_further|].
  simpl. eauto.
Qed.

Lemma stats_loop_ok (total : Z) (items : list (string * json)) (m : gmap string lang_stat) :
  (forall lang info, (lang, info) ∈ items ->
     exists size fv files ln,
       get_size info = inr size /\ py_get info "files" (JArr []) = inr fv /\
       py_iter fv = inr files /\ sum_lines fs repo_dir files = inr ln) ->
  exists m', stats_loop fs repo_dir total items m = inr m'.
Proof.
  revert m. induction items as [|[l i] items IH]; intros m Hall; simpl; [eauto|].
  destruct (Hall l i (list_elem_of_here _ _)) as (size & fv & files & ln & Hs & Hf & Hi & Hl).
  rewrite Hf. simpl. rewrite Hi. simpl. rewrite Hl. simpl. rewrite Hs. simpl.
  apply IH. intros; eapply Hall; by apply list_elem_of_further.
Qed.

End Aggregation.

(** The report decoded by [_run_linguist_breakdown] and aggregated by
    [_collect_language_stats]. *)
Lemma collect_language_stats_inv (E : env) (w : wrapper) (repo_dir : path)
    (s s' : state) (stats : gmap string lang_stat) :
  collect_language_stats E w repo_dir s = (s', inr stats) ->
  exists s1 v, run_linguist_breakdown E w repo_dir s = (s1, inr v) /\
               aggregate (st_fs s1) repo_dir v = inr stats.
Proof.
  intros H. unfold collect_language_stats, bind in H.
  destruct (run_linguist_breakdown E w repo_dir s) as [s1 [e|v]]; [discriminate|].
  unfold get_fs, lift in H. exists s1, v. split; [reflexivity|].
  destruct (aggregate (st_fs s1) repo_dir v); inversion H; reflexivity.
Qed.

Lemma aggregate_inv (fs : fsys) (repo_dir : path) (v : json) (stats : gmap string lang_stat) :
  aggregate fs repo_dir v = inr stats ->
  exists items s, v = JObj items /\ items <> [] /\ sum_sizes items = inr s /\
    stats_loop fs repo_dir (if Z.eqb s 0 then 1%Z else s) items ∅ = inr stats.
Proof.
  unfold aggregate. destruct (falsy v) eqn:Hf; [discriminate|].
  destruct v as [| | | | |items]; try discriminate.
  destruct (sum_sizes items) as [|s] eqn:Hs; [discriminate|]. simpl.
  intros H. exists items, s. repeat split; try assumption.
  intros ->. discriminate.
Qed.

(** C4: when [_collect_language_stats] returns a mapping, its languages
    are exactly the keys of the decoded classifier report. *)
Theorem collect_keys_exact (E : env) (w : wrapper) (repo_dir : path)
    (s s' : state) (stats : gmap string lang_stat) :
  collect_language_stats E w repo_dir s = (s', inr stats) ->
  exists s1 items, run_linguist_breakdown E w repo_dir s = (s1, inr (JObj items)) /\
    dom stats = list_to_set (map fst items).
Proof.
  intros H. apply collect_language_stats_inv in H as (s1 & v & Hrun & Hagg).
  apply aggregate_inv in Hagg as (items & t & -> & _ & _ & Hloop).
  exists s1, items. split; [exact Hrun|].
  rewrite (stats_loop_dom _ _ _ _ _ _ Hloop), dom_empty_L. set_solver.
Qed.

Lemma sum_sizes_spec (items : list (string * json)) (s : Z) :
  sum_sizes items = inr s ->
  exists zs, Forall2 (fun kv z => get_size kv.2 = inr z) items zs /\ s = foldr Z.add 0%Z zs.
Proof.
  revert s. induction items as [|[l i] items IH]; intros s H; simpl in H.
  - inversion H. exists []. split; [constructor|reflexivity].
  - destruct (get_size i) as [|z] eqn:Hz; [discriminate|]. simpl in H.
    destruct (sum_sizes items) as [|t]; [discriminate|]. simpl in H. inversion H; subst.
    destruct (IH t eq_refl) as (zs & Hf & ->).
    exists (z :: zs). split; [constructor; assumption|reflexivity].
Qed.

(** C2 (as amended): the percentage of each language is
    [round(float(size) * 100.0 / float(total), 2)] with [total] the sum of
    all reported sizes, or 1 when that sum is 0. *)
Theorem aggregate_percent (fs : fsys) (repo_dir : path) (items : list (string * json))
    (stats : gmap string lang_stat) :
  NoDup (map fst items) ->
  aggregate fs repo_dir (JObj items) = inr stats ->
  exists zs, Forall2 (fun kv z => get_size kv.2 = inr z) items zs /\
    let s := foldr Z.add 0%Z zs in
    let total := if Z.eqb s 0 then 1%Z else s in
    forall lang info, (lang, info) ∈ items ->
      exists size st, get_size info = inr size /\ stats !! lang = Some st /\
        percent st = F.round2 (F.div (F.mul (F.of_int size) 100) (F.of_int total)).
Proof.
  intros Hnd H. apply aggregate_inv in H as (items' & s & Heq & _ & Hs & Hloop).
  inversion Heq; subst items'.
  destruct (sum_sizes_spec _ _ Hs) as (zs & Hf & Hsum).
  exists zs. split; [exact Hf|]. simpl. rewrite <- Hsum.
  intros lang info Hin.
  destruct (stats_loop_lookup _ _ _ _ _ _ lang info Hnd Hloop Hin)
    as (size & fv & files & ln & Hsz & _ & _ & _ & Hl).
  exists size, {| percent := percent_of size (if Z.eqb s 0 then 1%Z else s); lines := ln |}.
  split; [exact Hsz|]. split; [exact Hl|]. reflexivity.
Qed.

(** C2 counterexample: exact quotients on a tie of the third decimal are
    not rounded by a fixed rule.  [3 * 100 / 20000 = 0.015] goes down to
    0.01 (towards an odd digit), [7 * 100 / 20000 = 0.035] goes up to 0.04
    (towards an even digit): the binary approximation of the quotient
    decides, so neither half-up, half-down, half-even nor half-odd
    rounding of [size * 100 / total] is what the code returns. *)
Lemma percent_ties_counterexample :
  (3 * 100 / 20000 == ((1 # 100) + (2 # 100)) / 2)%Q /\
  percent_A (tie_report 3 19997) = Some (F.fl (1 # 100)) /\
  ~ (F.fl (1 # 100) == 2 # 100)%Q /\ ~ (F.fl (1 # 100) == F.fl (2 # 100))%Q /\
  (7 * 100 / 20000 == ((3 # 100) + (4 # 100)) / 2)%Q /\
  percent_A (tie_report 7 19993) = Some (F.fl (4 # 100)) /\
  ~ (F.fl (4 # 100) == 3 # 100)%Q /\ ~ (F.fl (4 # 100) == F.fl (3 # 100))%Q.
Proof. vm_compute. repeat split; try reflexivity; discriminate. Qed.

Lemma percent_of_zero (total : Z) : percent_of 0 total = 0%Q.
Proof. reflexivity. Qed.

(** C10: entries whose value lacks ["size"] or ["files"] do not make the
    aggregation fail: a missing size counts 0 towards the total and gives
    percentage 0, a missing file list gives 0 lines, and the language is
    in the result. *)
Theorem aggregate_missing_fields (fs : fsys) (repo_dir : path) (items : list (string * json)) :
  items <> [] ->
  NoDup (map fst items) ->
  (forall lang info, (lang, info) ∈ items -> exists kvs, info = JObj kvs /\
     (assoc "size" kvs = None \/ exists z, assoc "size" kvs = Some (JInt z)) /\
     (assoc "files" kvs = None \/
      exists fl, assoc "files" kvs = Some (JArr (map JStr fl)) /\
        forall f, f ∈ fl -> exists n, count_lines fs (path_join repo_dir f) = inr n)) ->
  exists stats, aggregate fs repo_dir (JObj items) = inr stats /\
    sum_sizes items = inr (foldr Z.add 0%Z (map (fun kv => size_or_zero kv.2) items)) /\
    forall lang kvs, (lang, JObj kvs) ∈ items ->
      exists st, stats !! lang = Some st /\
        (assoc "size" kvs = None -> percent st = 0%Q) /\
        (assoc "files" kvs = None -> lines st = 0%nat).
Proof.
  intros Hne Hnd Hall.
  assert (Hsize : forall lang info, (lang, info) ∈ items -> get_size info = inr (size_or_zero info)).
  { intros lang info Hin. destruct (Hall _ _ Hin) as (kvs & -> & [Hs|[z Hs]] & _);
      unfold get_size, size_or_zero; simpl; rewrite Hs; reflexivity. }
  assert (Hsum : sum_sizes items = inr (foldr Z.add 0%Z (map (fun kv => size_or_zero kv.2) items))).
  { clear Hne Hnd Hall. induction items as [|[l i] items IH]; [reflexivity|].
    simpl. rewrite (Hsize l i (list_elem_of_here _ _)). simpl.
    rewrite IH; [reflexivity|]. intros; eapply Hsize; by apply list_elem_of_further. }
  destruct (stats_loop_ok fs repo_dir
              (let s := foldr Z.add 0%Z (map (fun kv => size_or_zero kv.2) items) in
               if Z.eqb s 0 then 1%Z else s) items ∅) as [stats Hloop].
  { intros lang info Hin. destruct (Hall _ _ Hin) as (kvs & -> & _ & Hfiles).
    exists (size_or_zero (JObj kvs)).
    destruct Hfiles as [Hf|(fl & Hf & Hc)].
    - exists (JArr []), [], 0%nat. split; [exact (Hsize lang _ Hin)|].
      simpl. rewrite Hf. auto.
    - destruct (sum_lines_ok fs repo_dir fl Hc) as [ln Hln].
      exists (JArr (map JStr fl)), (map JStr fl), ln. split; [exact (Hsize lang _ Hin)|].
      simpl. rewrite Hf. auto. }
  exists stats. split; [|split; [exact Hsum|]].
  - unfold aggregate. destruct items as [|it items']; [congruence|].
    simpl falsy. cbv iota. rewrite Hsum. exact Hloop.
  - intros lang kvs Hin.
    destruct (stats_loop_lookup _ _ _ _ _ _ lang (JObj kvs) Hnd Hloop Hin)
      as (size & fv & files & ln & Hsz & Hfv & Hfi & Hln & Hl).
    eexists. split; [exact Hl|]. split.
    + intros Hs. rewrite (Hsize _ _ Hin) in Hsz. inversion Hsz; subst size.
      simpl. unfold size_or_zero. rewrite Hs. apply percent_of_zero.
    + intros Hf. simpl in Hfv. rewrite Hf in Hfv. inversion Hfv; subst fv.
      simpl in Hfi. inversion Hfi; subst files. simpl in Hln. inversion Hln. reflexivity.
Qed.

(* ------------------------------------------------------------------ *)
(** ** Classifier invocation and report validation *)

(** The classifier step, up to the decoded output, once the command line
    is built and the process has run. *)
Lemma collect_after_run (E : env) (w : wrapper) (repo_dir : path) (s : state)
    (c : list string * option path) (res : proc_result) :
  linguist_command E w BREAKDOWN_ARGS repo_dir s = (s, inr c) ->
  subprocess_run E c.1 c.2 (st_fs s) = inr res ->
  let s1 := {| st_fs := fs_after res; st_names := st_names s |} in
  collect_language_stats E w repo_dir s =
    if negb (Z.eqb (returncode res) 0)
    then (s1, inl (RuntimeError (linguist_failure (returncode res) (stderr res))))
    else match json_loads E (stdout res) with
         | None => (s1, inl JSONDecodeError)
         | Some v => (s1, aggregate (fs_after res) repo_dir v)
         end.
Proof.
  intros Hc Hrun s1.
  unfold collect_language_stats, run_linguist_breakdown, execute_linguist.
  unfold bind. unfold BREAKDOWN_ARGS in Hc. rewrite Hc.
  unfold get_fs, lift, put_fs. simpl. rewrite Hrun.
  destruct (Z.eqb (returncode res) 0); simpl; [|reflexivity].
  destruct (json_loads E (stdout res)); reflexivity.
Qed.

(** In either mode the command line is built without touching the state;
    in the container mode [os.stat] needs the directory to exist. *)
Lemma linguist_command_ok (E : env) (w : wrapper) (args : list string)
    (repo_dir : path) (s : state) :
  st_fs s !! repo_dir = Some NDir ->
  exists c, linguist_command E w args repo_dir s = (s, inr c).
Proof.
  intros Hd. unfold linguist_command.
  destruct (use_docker w); [|eexists; reflexivity].
  unfold os_stat, get_fs, bind, ret. cbv beta iota. rewrite Hd. eexists. reflexivity.
Qed.

(** C7: in both execution modes, a classifier exiting with a non-zero
    code makes the step fail with [RuntimeError] whose message carries
    the exit code and the captured standard error. *)
Theorem classifier_failure_reported (E : env) (w : wrapper) (repo_dir : path) (s : state)
    (c : list string * option path) (res : proc_result) :
  linguist_command E w BREAKDOWN_ARGS repo_dir s = (s, inr c) ->
  subprocess_run E c.1 c.2 (st_fs s) = inr res ->
  returncode res <> 0%Z ->
  collect_language_stats E w repo_dir s =
    ({| st_fs := fs_after res; st_names := st_names s |},
     inl (RuntimeError ("github-linguist failed with code " +:+ pretty (returncode res)
                        +:+ ": " +:+ stderr res))).
Proof.
  intros Hc Hrun Hne. rewrite (collect_after_run E w repo_dir s c res Hc Hrun).
  destruct (Z.eqb_spec (returncode res) 0) as [He|_]; [contradiction|reflexivity].
Qed.

(** C8: an output that does not decode fails with [JSONDecodeError]; an
    output decoding to the empty mapping fails with [RuntimeError]; a
    mapping returned by the step is never empty. *)
Theorem report_validation (E : env) (w : wrapper) (repo_dir : path) (s : state)
    (c : list string * option path) (res : proc_result) :
  linguist_command E w BREAKDOWN_ARGS repo_dir s = (s, inr c) ->
  subprocess_run E c.1 c.2 (st_fs s) = inr res ->
  returncode res = 0%Z ->
  (json_loads E (stdout res) = None ->
     snd (collect_language_stats E w repo_dir s) = inl JSONDecodeError) /\
  (json_loads E (stdout res) = Some (JObj []) ->
     snd (collect_language_stats E w repo_dir s) =
       inl (RuntimeError "github-linguist returned empty result")) /\
  (forall s' stats, collect_language_stats E w repo_dir s = (s', inr stats) -> stats <> ∅).
Proof.
  intros Hc Hrun H0. rewrite (collect_after_run E w repo_dir s c res Hc Hrun), H0. simpl.
  split; [intros ->; reflexivity|]. split; [intros ->; reflexivity|].
  intros s' stats H.
  destruct (json_loads E (stdout res)) as [v|]; inversion H as [[Hs Hagg]].
  apply aggregate_inv in Hagg as (items & t & -> & Hne & _ & Hloop).
  intros ->. apply stats_loop_dom in Hloop. rewrite dom_empty_L in Hloop.
  destruct items as [|[l i] items]; [congruence|].
  assert (l ∈ (∅ : gset string)) as Hl; [|set_solver].
  rewrite Hloop. simpl. set_solver.
Qed.

(* ------------------------------------------------------------------ *)
(** ** Sum of the percentages *)

(* ------------------------------------------------------------------ *)
(** ** Error bounds of the binary64 model *)
Module FFacts.
Import F.
Local Open Scope Q_scope.

Lemma Zpow2_pos (k : Z) : (0 < 2 ^ k)%Z \/ (k < 0)%Z.
Proof. destruct (Z.ltb_spec k 0); [right; lia|left; apply Z.pow_pos_nonneg; lia]. Qed.

Lemma Zpow2_max_pos (k : Z) : (0 < 2 ^ Z.max 0 k)%Z.
Proof. apply Z.pow_pos_nonneg; lia. Qed.

(** [pow2 k] as a quotient of two natural powers. *)
Lemma pow2_frac (k : Z) :
  pow2 k == inject_Z (2 ^ Z.max 0 k) / inject_Z (2 ^ Z.max 0 (- k)).
Proof.
  unfold pow2. destruct (Z.leb_spec 0 k).
  - rewrite (Z.max_r 0 k), (Z.max_l 0 (- k)) by lia. simpl.
    unfold Qdiv. rewrite Qmult_1_r. reflexivity.
  - rewrite (Z.max_l 0 k), (Z.max_r 0 (- k)) by lia.
    pose proof (Zpow2_max_pos (- k)) as Hp. rewrite Z.max_r in Hp by lia.
    unfold Qdiv, Qinv, inject_Z. simpl.
    destruct (2 ^ (- k))%Z as [|p|p] eqn:Hq; try lia. reflexivity.
Qed.

Lemma inject_Z_pos (z : Z) : (0 < z)%Z -> 0 < inject_Z z.
Proof. intros H. unfold Qlt. simpl. lia. Qed.

Lemma pow2_pos (k : Z) : 0 < pow2 k.
Proof.
  rewrite pow2_frac. apply Qlt_shift_div_l.
  - apply inject_Z_pos, Zpow2_max_pos.
  - rewrite Qmult_0_l. apply inject_Z_pos, Zpow2_max_pos.
Qed.

Lemma pow2_add (a b : Z) : pow2 (a + b) == pow2 a * pow2 b.
Proof.
  rewrite !pow2_frac.
  assert (Hx : forall x y : Z, (0 < y)%Z -> inject_Z x / inject_Z y == x # Z.to_pos y).
  { intros x y Hy. unfold Qdiv, Qinv, inject_Z. simpl.
    destruct y; try lia. unfold Qmult. simpl. rewrite Z.mul_1_r. reflexivity. }
  rewrite !Hx by apply Zpow2_max_pos.
  unfold Qmult, Qeq. simpl.
  rewrite !Pos2Z.inj_mul, !Z2Pos.id by apply Zpow2_max_pos.
  rewrite <- !Z.pow_add_r by lia. f_equal. lia.
Qed.

Lemma pow2_nonneg (k : Z) : (0 <= k)%Z -> pow2 k == inject_Z (2 ^ k).
Proof. intros H. unfold pow2. destruct (Z.leb_spec 0 k); [reflexivity|lia]. Qed.

Lemma pow2_opp (k : Z) : pow2 (- k) * pow2 k == 1.
Proof. rewrite <- pow2_add. rewrite Z.add_opp_diag_l. apply pow2_nonneg. lia. Qed.

Lemma pow2_le_mono (a b : Z) : (a <= b)%Z -> pow2 a <= pow2 b.
Proof.
  intros H. replace b with (a + (b - a))%Z by lia. rewrite pow2_add.
  rewrite (pow2_nonneg (b - a)) by lia.
  rewrite <- (Qmult_1_r (pow2 a)) at 1. apply Qmult_le_l; [apply pow2_pos|].
  unfold Qle. simpl. pose proof (Z.pow_pos_nonneg 2 (b - a)). lia.
Qed.

Lemma pow2_lt_mono (a b : Z) : (a < b)%Z -> pow2 a < pow2 b.
Proof.
  intros H. replace b with (a + (b - a))%Z by lia. rewrite pow2_add.
  rewrite (pow2_nonneg (b - a)) by lia.
  rewrite <- (Qmult_1_r (pow2 a)) at 1. apply Qmult_lt_l; [apply pow2_pos|].
  unfold Qlt. simpl.
  assert (2 ^ 1 <= 2 ^ (b - a))%Z by (apply Z.pow_le_mono_r; lia). simpl in *. lia.
Qed.

Lemma div_inject (x y : Z) : (0 < y)%Z -> inject_Z x / inject_Z y == x # Z.to_pos y.
Proof.
  intros Hy. unfold Qdiv, Qinv, inject_Z. simpl.
  destruct y; try lia. unfold Qmult. simpl. rewrite Z.mul_1_r. reflexivity.
Qed.

Lemma ge_pow2_spec (n d k : Z) :
  (0 < d)%Z -> ge_pow2 n d k = true <-> pow2 k <= inject_Z n / inject_Z d.
Proof.
  intros Hd. unfold ge_pow2. rewrite pow2_frac, !div_inject by (apply Zpow2_max_pos || lia).
  unfold Qle. simpl. rewrite !Z2Pos.id by (apply Zpow2_max_pos || lia).
  rewrite Z.leb_le. lia.
Qed.

Lemma ge_pow2_false (n d k : Z) :
  (0 < d)%Z -> ge_pow2 n d k = false <-> inject_Z n / inject_Z d < pow2 k.
Proof.
  intros Hd. split.
  - intros H. apply Qnot_le_lt. intros Hle. apply ge_pow2_spec in Hle; congruence.
  - intros Hlt. destruct (ge_pow2 n d k) eqn:Hg; [|reflexivity].
    apply ge_pow2_spec in Hg; [|exact Hd]. exfalso. exact (Qlt_not_le _ _ Hlt Hg).
Qed.

Lemma binade_spec (n d : Z) :
  (0 < n)%Z -> (0 < d)%Z ->
  pow2 (binade n d) <= inject_Z n / inject_Z d /\
  inject_Z n / inject_Z d < pow2 (binade n d + 1).
Proof.
  intros Hn Hd.
  destruct (Z.log2_spec n Hn) as [Hn1 Hn2].
  destruct (Z.log2_spec d Hd) as [Hd1 Hd2].
  pose proof (Z.log2_nonneg n). pose proof (Z.log2_nonneg d).
  set (ln := Z.log2 n) in *. set (ld := Z.log2 d) in *.
  rewrite Z.pow_succ_r in Hn2, Hd2 by lia.
  assert (Hlow : ge_pow2 n d (ln - ld - 1) = true).
  { unfold ge_pow2. apply Z.leb_le.
    destruct (Z.leb_spec 0 (ln - ld - 1)).
    - rewrite (Z.max_r 0 (ln - ld - 1)), (Z.max_l 0 (- (ln - ld - 1))) by lia.
      replace ln with (ld + 1 + (ln - ld - 1))%Z in Hn1 by lia.
      rewrite !Z.pow_add_r in Hn1 by lia. simpl in *.
      pose proof (Z.pow_pos_nonneg 2 (ln - ld - 1)). nia.
    - rewrite (Z.max_l 0 (ln - ld - 1)), (Z.max_r 0 (- (ln - ld - 1))) by lia.
      replace ld with (ln + - (ln - ld - 1) - 1)%Z in Hd2 by lia.
      replace (2 * 2 ^ (ln + - (ln - ld - 1) - 1))%Z with (2 ^ ln * 2 ^ (- (ln - ld - 1)))%Z in Hd2.
      + simpl. pose proof (Z.pow_pos_nonneg 2 (- (ln - ld - 1))). nia.
      + rewrite <- Z.pow_succ_r by lia. rewrite <- Z.pow_add_r by lia. f_equal. lia. }
  assert (Hhigh : ge_pow2 n d (ln - ld + 1) = false).
  { unfold ge_pow2. apply Z.leb_gt.
    destruct (Z.leb_spec 0 (ln - ld + 1)).
    - rewrite (Z.max_r 0 (ln - ld + 1)), (Z.max_l 0 (- (ln - ld + 1))) by lia.
      replace (2 * 2 ^ ln)%Z with (2 ^ ld * 2 ^ (ln - ld + 1))%Z in Hn2.
      + simpl. pose proof (Z.pow_pos_nonneg 2 (ln - ld + 1)). nia.
      + rewrite <- Z.pow_add_r by lia. rewrite <- Z.pow_succ_r by lia. f_equal. lia.
    - rewrite (Z.max_l 0 (ln - ld + 1)), (Z.max_r 0 (- (ln - ld + 1))) by lia.
      replace ld with (ln + 1 + - (ln - ld + 1))%Z in Hd1 by lia.
      rewrite !Z.pow_add_r in Hd1 by lia. simpl in *.
      pose proof (Z.pow_pos_nonneg 2 (- (ln - ld + 1))). nia. }
  unfold binade. fold ln ld.
  destruct (ge_pow2 n d (ln - ld)) eqn:Hg.
  - split; [exact (proj1 (ge_pow2_spec n d _ Hd) Hg)|].
    exact (proj1 (ge_pow2_false n d _ Hd) Hhigh).
  - split; [exact (proj1 (ge_pow2_spec n d _ Hd) Hlow)|].
    replace (ln - ld - 1 + 1)%Z with (ln - ld)%Z by lia.
    exact (proj1 (ge_pow2_false n d _ Hd) Hg).
Qed.

Lemma rne_div_err_Z (N D : Z) :
  (0 < D)%Z -> (- D <= 2 * (D * rne_div N D - N) <= D)%Z.
Proof.
  intros HD. unfold rne_div.
  pose proof (Z.div_mod N D ltac:(lia)) as Hdm.
  pose proof (Z.mod_pos_bound N D HD) as Hr.
  set (m := (N / D)%Z) in *. set (r := (N mod D)%Z) in *.
  destruct (Z.ltb_spec D (2 * r)); [lia|].
  destruct (Z.eqb_spec (2 * r) D); [destruct (Z.odd m); lia|lia].
Qed.

Lemma rne_div_nonneg (N D : Z) : (0 <= N)%Z -> (0 < D)%Z -> (0 <= rne_div N D)%Z.
Proof.
  intros HN HD. pose proof (rne_div_err_Z N D HD).
  destruct (Z.leb_spec 0 (rne_div N D)); [lia|]. nia.
Qed.

Lemma Qabs_half (m N D : Z) :
  (0 < D)%Z -> (- D <= 2 * (D * m - N) <= D)%Z ->
  Qabs (inject_Z m - inject_Z N / inject_Z D) <= 1 # 2.
Proof.
  intros HD H. rewrite div_inject by exact HD.
  apply Qabs_Qle_condition. unfold Qle, Qminus, Qplus, Qopp. simpl.
  rewrite !Z2Pos.id by lia. split; nia.
Qed.

Lemma Q_frac_pos (n d : Z) : (0 < n)%Z -> (0 < d)%Z -> 0 < inject_Z n / inject_Z d.
Proof.
  intros Hn Hd. rewrite div_inject by exact Hd. unfold Qlt. simpl. lia.
Qed.

Lemma fl_pos_spec (n d : Z) :
  (0 < n)%Z -> (0 < d)%Z ->
  0 <= fl_pos n d /\
  Qabs (fl_pos n d - inject_Z n / inject_Z d) <= (inject_Z n / inject_Z d) * u.
Proof.
  intros Hn Hd. set (q := inject_Z n / inject_Z d).
  destruct (binade_spec n d Hn Hd) as [Hlo _]. fold q in Hlo.
  unfold fl_pos. set (E := binade n d) in *. set (e := (E - 52)%Z).
  set (N := (n * 2 ^ Z.max 0 (- e))%Z). set (D := (d * 2 ^ Z.max 0 e)%Z).
  assert (HD : (0 < D)%Z) by (unfold D; pose proof (Zpow2_max_pos e); nia).
  assert (HN : (0 < N)%Z) by (unfold N; pose proof (Zpow2_max_pos (- e)); nia).
  set (m := rne_div N D).
  assert (Hm : Qabs (inject_Z m - inject_Z N / inject_Z D) <= 1 # 2)
    by (apply Qabs_half; [exact HD|apply rne_div_err_Z; exact HD]).
  assert (HND : inject_Z N / inject_Z D * pow2 e == q).
  { unfold q, N, D. rewrite pow2_frac.
    rewrite !div_inject by (try apply Zpow2_max_pos; nia).
    unfold Qeq, Qmult. simpl.
    rewrite !Pos2Z.inj_mul, !Z2Pos.id by (try apply Zpow2_max_pos; nia). ring. }
  assert (Hpe : 0 < pow2 e) by apply pow2_pos.
  assert (HE : pow2 E == pow2 e * pow2 52).
  { rewrite <- pow2_add. unfold e. replace (E - 52 + 52)%Z with E by lia. reflexivity. }
  split.
  - apply Qmult_le_0_compat; [|apply Qlt_le_weak, Hpe].
    unfold Qle. simpl. pose proof (rne_div_nonneg N D ltac:(lia) HD). fold m in H. lia.
  - assert (Heq : inject_Z m * pow2 e - q == (inject_Z m - inject_Z N / inject_Z D) * pow2 e).
    { rewrite <- HND. ring. }
    rewrite Heq, Qabs_Qmult, (Qabs_pos (pow2 e)) by (apply Qlt_le_weak, Hpe).
    apply Qle_trans with ((1 # 2) * pow2 e).
    + apply Qmult_le_compat_r; [exact Hm|apply Qlt_le_weak, Hpe].
    + rewrite (pow2_nonneg 52) in HE by lia.
      assert (Hq : pow2 e * inject_Z (2 ^ 52) <= q) by (rewrite <- HE; exact Hlo).
      assert (Hr : (1 # 2) * pow2 e == pow2 e * inject_Z (2 ^ 52) * u).
      { rewrite <- Qmult_assoc.
        assert (H52 : inject_Z (2 ^ 52) * u == 1 # 2) by reflexivity.
        rewrite H52. ring. }
      rewrite Hr. apply Qmult_le_compat_r; [exact Hq|discriminate].
Qed.

Lemma rne_div_le (N D M : Z) : (0 < D)%Z -> (N <= M * D)%Z -> (rne_div N D <= M)%Z.
Proof. intros HD H. pose proof (rne_div_err_Z N D HD). nia. Qed.

Lemma rne_div_exact (M D : Z) : (0 < D)%Z -> rne_div (M * D) D = M.
Proof. intros HD. pose proof (rne_div_err_Z (M * D) D HD). nia. Qed.

Lemma binade_small (n d K : Z) :
  (0 < n)%Z -> (0 < d)%Z -> inject_Z n / inject_Z d <= inject_Z K ->
  (K < 2 ^ 53)%Z -> (binade n d <= 52)%Z.
Proof.
  intros Hn Hd HK Hb. destruct (binade_spec n d Hn Hd) as [Hlo _].
  destruct (Z.le_gt_cases (binade n d) 52) as [|Hgt]; [assumption|exfalso].
  assert (H53 : pow2 53 <= pow2 (binade n d)) by (apply pow2_le_mono; lia).
  rewrite (pow2_nonneg 53) in H53 by lia.
  assert (HK' : inject_Z K < inject_Z (2 ^ 53)) by (unfold Qlt; simpl; lia).
  apply (Qlt_irrefl (inject_Z K)).
  apply Qlt_le_trans with (inject_Z (2 ^ 53)); [exact HK'|].
  apply Qle_trans with (pow2 (binade n d)); [exact H53|].
  apply Qle_trans with (inject_Z n / inject_Z d); assumption.
Qed.

Lemma fl_pos_small (n d : Z) :
  (binade n d <= 52)%Z ->
  fl_pos n d ==
  inject_Z (rne_div (n * 2 ^ (52 - binade n d)) d) / inject_Z (2 ^ (52 - binade n d)).
Proof.
  intros HE. unfold fl_pos. rewrite pow2_frac.
  replace (Z.max 0 (- (binade n d - 52))) with (52 - binade n d)%Z by lia.
  replace (Z.max 0 (binade n d - 52)) with 0%Z by lia.
  rewrite Z.pow_0_r, Z.mul_1_r. unfold Qdiv. ring.
Qed.

Lemma fl_pos_le_int (n d K : Z) :
  (0 < n)%Z -> (0 < d)%Z -> inject_Z n / inject_Z d <= inject_Z K ->
  (K < 2 ^ 53)%Z -> fl_pos n d <= inject_Z K.
Proof.
  intros Hn Hd HK Hb. pose proof (binade_small n d K Hn Hd HK Hb) as HE.
  rewrite (fl_pos_small n d HE).
  set (P := (2 ^ (52 - binade n d))%Z).
  assert (HP : (0 < P)%Z) by (apply Z.pow_pos_nonneg; lia).
  rewrite div_inject in HK by exact Hd. unfold Qle in HK. simpl in HK.
  rewrite Z2Pos.id in HK by exact Hd.
  assert (Hm : (rne_div (n * P) d <= K * P)%Z) by (apply rne_div_le; nia).
  rewrite div_inject by exact HP. unfold Qle. simpl. rewrite Z2Pos.id by exact HP. lia.
Qed.

Lemma Qeq_le (a b : Q) : a == b -> a <= b.
Proof. intros H. rewrite H. apply Qle_refl. Qed.

Lemma fl_pos_int (n d k : Z) :
  (0 < n)%Z -> (0 < d)%Z -> inject_Z n / inject_Z d == inject_Z k ->
  (k < 2 ^ 53)%Z -> fl_pos n d == inject_Z k.
Proof.
  intros Hn Hd Hk Hb.
  pose proof (binade_small n d k Hn Hd (Qeq_le _ _ Hk) Hb) as HE.
  rewrite (fl_pos_small n d HE).
  set (P := (2 ^ (52 - binade n d))%Z).
  assert (HP : (0 < P)%Z) by (apply Z.pow_pos_nonneg; lia).
  rewrite div_inject in Hk by exact Hd. unfold Qeq in Hk. simpl in Hk.
  rewrite Z2Pos.id in Hk by exact Hd.
  replace (n * P)%Z with (k * P * d)%Z by nia. rewrite rne_div_exact by exact Hd.
  rewrite div_inject by exact HP. unfold Qeq. simpl. rewrite Z2Pos.id by exact HP. lia.
Qed.

Lemma Q_num_den (q : Q) : q == inject_Z (Qnum q) / inject_Z (Zpos (Qden q)).
Proof. destruct q as [a b]. rewrite div_inject by lia. reflexivity. Qed.

Lemma Q_neg_num_den (q : Q) : q == - (inject_Z (- Qnum q) / inject_Z (Zpos (Qden q))).
Proof.
  destruct q as [a b]. rewrite div_inject by lia. unfold Qeq. simpl. lia.
Qed.

(** Relative error of rounding to binary64 (no overflow, no subnormals). *)
Lemma fl_error (q : Q) : Qabs (fl q - q) <= Qabs q * u.
Proof.
  unfold fl. set (n := Qnum q). set (d := Zpos (Qden q)).
  assert (Hd : (0 < d)%Z) by (unfold d; lia).
  destruct (Z.eqb_spec n 0) as [H0|H0].
  - assert (Hq : q == 0) by (unfold Qeq; fold n; rewrite H0; reflexivity).
    rewrite Hq. simpl. discriminate.
  - destruct (Z.ltb_spec 0 n) as [Hp|Hp].
    + destruct (fl_pos_spec n d Hp Hd) as [_ He].
      rewrite (Q_num_den q). fold n d.
      rewrite (Qabs_pos (inject_Z n / inject_Z d))
        by (apply Qlt_le_weak, Q_frac_pos; assumption).
      exact He.
    + assert (Hp' : (0 < - n)%Z) by lia.
      destruct (fl_pos_spec (- n) d Hp' Hd) as [_ He].
      rewrite (Q_neg_num_den q). fold n d.
      assert (Hr : - fl_pos (- n) d - - (inject_Z (- n) / inject_Z d) ==
                   - (fl_pos (- n) d - inject_Z (- n) / inject_Z d)) by ring.
      rewrite Hr, !Qabs_opp.
      rewrite (Qabs_pos (inject_Z (- n) / inject_Z d))
        by (apply Qlt_le_weak, Q_frac_pos; assumption).
      exact He.
Qed.

Lemma fl_nonneg (q : Q) : 0 <= q -> 0 <= fl q.
Proof.
  intros Hq. unfold fl. set (n := Qnum q). set (d := Zpos (Qden q)).
  assert (Hd : (0 < d)%Z) by (unfold d; lia).
  assert (Hn : (0 <= n)%Z) by (unfold Qle in Hq; simpl in Hq; unfold n; lia).
  destruct (Z.eqb_spec n 0); [apply Qle_refl|].
  destruct (Z.ltb_spec 0 n); [|lia].
  apply (fl_pos_spec n d); assumption.
Qed.

Lemma fl_le_int (q : Q) (K : Z) :
  0 <= q -> q <= inject_Z K -> (K < 2 ^ 53)%Z -> fl q <= inject_Z K.
Proof.
  intros Hq HK Hb. unfold fl. set (n := Qnum q). set (d := Zpos (Qden q)).
  assert (Hd : (0 < d)%Z) by (unfold d; lia).
  assert (Hn : (0 <= n)%Z) by (unfold Qle in Hq; simpl in Hq; unfold n; lia).
  destruct (Z.eqb_spec n 0).
  - apply Qle_trans with q; assumption.
  - destruct (Z.ltb_spec 0 n); [|lia].
    apply fl_pos_le_int; try assumption.
    pose proof (Q_num_den q) as Hqd. fold n d in Hqd. rewrite <- Hqd. exact HK.
Qed.

(** Integers below [2^53] are floats. *)
Lemma fl_int (q : Q) (k : Z) :
  q == inject_Z k -> (0 <= k < 2 ^ 53)%Z -> fl q == inject_Z k.
Proof.
  intros Hq Hb. unfold fl. set (n := Qnum q). set (d := Zpos (Qden q)).
  assert (Hd : (0 < d)%Z) by (unfold d; lia).
  assert (Hnk : (n = k * d)%Z) by (unfold Qeq in Hq; simpl in Hq; unfold n, d; lia).
  destruct (Z.eqb_spec n 0).
  - assert (k = 0%Z) by nia. subst k. reflexivity.
  - destruct (Z.ltb_spec 0 n); [|nia].
    apply fl_pos_int; try assumption; [|lia].
    pose proof (Q_num_den q) as Hqd. fold n d in Hqd. rewrite <- Hqd. exact Hq.
Qed.

Lemma rne_err (q : Q) : Qabs (inject_Z (rne q) - q) <= 1 # 2.
Proof.
  unfold rne. set (n := Qnum q). set (d := Zpos (Qden q)).
  assert (Hd : (0 < d)%Z) by (unfold d; lia).
  destruct (Z.leb_spec 0 n).
  - rewrite (Q_num_den q). fold n d.
    apply Qabs_half; [exact Hd|apply rne_div_err_Z; exact Hd].
  - rewrite (Q_neg_num_den q). fold n d.
    assert (Hr : inject_Z (- rne_div (- n) d) - - (inject_Z (- n) / inject_Z d) ==
                 - (inject_Z (rne_div (- n) d) - inject_Z (- n) / inject_Z d)).
    { rewrite inject_Z_opp. ring. }
    rewrite Hr, Qabs_opp.
    apply Qabs_half; [exact Hd|apply rne_div_err_Z; exact Hd].
Qed.

Lemma rne_bounds (q : Q) (K : Z) :
  0 <= q -> q <= inject_Z K -> (0 <= rne q <= K)%Z.
Proof.
  intros H0 HK. unfold rne. set (n := Qnum q). set (d := Zpos (Qden q)).
  assert (Hd : (0 < d)%Z) by (unfold d; lia).
  assert (Hn : (0 <= n)%Z) by (unfold Qle in H0; simpl in H0; unfold n; lia).
  destruct (Z.leb_spec 0 n); [|lia]. split.
  - apply rne_div_nonneg; assumption.
  - apply rne_div_le; [exact Hd|].
    unfold Qle in HK. simpl in HK. unfold n, d. lia.
Qed.

End FFacts.

(* ------------------------------------------------------------------ *)
(** ** Bounds on one percentage *)
Section PercentBounds.
Local Open Scope Q_scope.
Import FFacts.

Variables size total : Z.
Hypothesis Hsize : (0 <= size <= total)%Z.
Hypothesis Htotal : (0 < total)%Z.
Hypothesis Hsmall : (100 * total < 2 ^ 53)%Z.

Lemma div_step_exact :
  F.mul (F.of_int size) 100 / F.of_int total == exact_percent size total.
Proof.
  assert (Hs : F.of_int size == inject_Z size) by (apply fl_int; [reflexivity|lia]).
  assert (Ht : F.of_int total == inject_Z total) by (apply fl_int; [reflexivity|lia]).
  assert (Hm : F.mul (F.of_int size) 100 == inject_Z (size * 100)).
  { unfold F.mul. apply fl_int; [|lia]. rewrite Hs, inject_Z_mult. reflexivity. }
  rewrite Hm, Ht, inject_Z_mult. unfold exact_percent. field.
  intros H. unfold Qeq in H. simpl in H. lia.
Qed.

Lemma p_bounds : 0 <= exact_percent size total <= 100.
Proof.
  assert (Hp : exact_percent size total == inject_Z (size * 100) / inject_Z total)
    by (unfold exact_percent, Qdiv; rewrite inject_Z_mult; ring).
  rewrite div_inject in Hp by exact Htotal.
  split; rewrite Hp; unfold Qle; simpl; rewrite Z2Pos.id by exact Htotal; nia.
Qed.

Lemma div_step_bounds :
  let x := F.div (F.mul (F.of_int size) 100) (F.of_int total) in
  0 <= x <= 100 /\ Qabs (x - (exact_percent size total)) <= 100 * F.u.
Proof.
  intros x. unfold x, F.div. pose proof p_bounds as [H0 H1].
  pose proof (fl_error (F.mul (F.of_int size) 100 / F.of_int total)) as He.
  rewrite div_step_exact in He at 2 3. rewrite (Qabs_pos (exact_percent size total) H0) in He.
  split; [split|].
  - apply fl_nonneg. rewrite div_step_exact. exact H0.
  - apply (fl_le_int _ 100); [rewrite div_step_exact; exact H0
                            |rewrite div_step_exact; exact H1|lia].
  - apply Qle_trans with (exact_percent size total * F.u); [exact He|].
    apply Qmult_le_compat_r; [exact H1|discriminate].
Qed.

Lemma percent_of_bounds : 0 <= percent_of size total <= 100.
Proof.
  destruct div_step_bounds as [[H0 H1] _].
  unfold percent_of, F.round2.
  set (x := F.div (F.mul (F.of_int size) 100) (F.of_int total)) in *.
  destruct (rne_bounds (x * 100) 10000) as [Hr0 Hr1].
  - apply Qmult_le_0_compat; [exact H0|discriminate].
  - change (inject_Z 10000) with (100 * 100). apply Qmult_le_compat_r; [exact H1|discriminate].
  - assert (Hy0 : 0 <= inject_Z (F.rne (x * 100)) / 100).
    { apply Qle_shift_div_l; [reflexivity|]. unfold Qle. simpl. lia. }
    split.
    + apply fl_nonneg. exact Hy0.
    + apply (fl_le_int _ 100); [exact Hy0| |lia].
      apply Qle_shift_div_r; [reflexivity|]. unfold Qle. simpl. lia.
Qed.

(** Each percentage is within [1/200 + 200 F.u] of the exact quotient. *)
Lemma percent_of_error :
  Qabs (percent_of size total - (exact_percent size total)) <= (1 # 200) + 200 * F.u.
Proof.
  destruct div_step_bounds as [[H0 H1] Hx].
  unfold percent_of, F.round2.
  set (x := F.div (F.mul (F.of_int size) 100) (F.of_int total)) in *.
  set (y := inject_Z (F.rne (x * 100)) / 100).
  destruct (rne_bounds (x * 100) 10000) as [Hr0 Hr1].
  - apply Qmult_le_0_compat; [exact H0|discriminate].
  - change (inject_Z 10000) with (100 * 100). apply Qmult_le_compat_r; [exact H1|discriminate].
  - assert (Hy0 : 0 <= y).
    { apply Qle_shift_div_l; [reflexivity|]. unfold Qle. simpl. lia. }
    assert (Hy1 : y <= 100).
    { apply Qle_shift_div_r; [reflexivity|]. unfold Qle. simpl. lia. }
    pose proof (fl_error y) as Hz. rewrite (Qabs_pos y Hy0) in Hz.
    assert (Hz' : Qabs (F.fl y - y) <= 100 * F.u).
    { apply Qle_trans with (y * F.u); [exact Hz|].
      apply Qmult_le_compat_r; [exact Hy1|discriminate]. }
    pose proof (rne_err (x * 100)) as Hr.
    assert (Hyx : Qabs (y - x) <= 1 # 200).
    { assert (E : y - x == (inject_Z (F.rne (x * 100)) - x * 100) * (1 # 100))
        by (unfold y; field).
      rewrite E, Qabs_Qmult.
      apply Qle_trans with ((1 # 2) * Qabs (1 # 100)).
      - apply Qmult_le_compat_r; [exact Hr|discriminate].
      - apply Qle_refl. }
    apply Qabs_Qle_condition in Hz', Hyx, Hx.
    apply Qabs_Qle_condition.
    set (c := 100 * F.u) in *.
    assert (Hc : 200 * F.u == c + c) by (unfold c; ring).
    rewrite Hc. clearbody c. lra.
Qed.

End PercentBounds.

(* ------------------------------------------------------------------ *)
(** ** Sum of the percentages *)
Section PercentSum.
Local Open Scope Q_scope.
Variable fs : fsys.
Variable repo_dir : path.

Lemma total_percent_insert (m : gmap string lang_stat) (k : string) (st : lang_stat) :
  m !! k = None -> total_percent (<[k := st]> m) == percent st + total_percent m.
Proof.
  intros Hk. unfold total_percent. rewrite map_fold_insert_L; [apply Qred_correct| |exact Hk].
  intros. apply Qred_complete. rewrite !Qred_correct. ring.
Qed.

Lemma stats_loop_total (total : Z) (items : list (string * json)) (zs : list Z)
    (m m' : gmap string lang_stat) :
  NoDup (map fst items) ->
  (forall k, k ∈ map fst items -> m !! k = None) ->
  Forall2 (fun kv z => get_size kv.2 = inr z) items zs ->
  stats_loop fs repo_dir total items m = inr m' ->
  total_percent m' == total_percent m + foldr (fun z acc => percent_of z total + acc) 0 zs.
Proof.
  intros Hnd Hfree Hzs. revert m Hfree Hnd.
  induction Hzs as [|[l info] z items zs Hz Hzs IH]; intros m Hfree Hnd H; simpl in H.
  - inversion H. simpl. ring.
  - simpl in Hnd. apply NoDup_cons in Hnd as [Hl Hnd]. simpl in Hz.
    destruct (py_get info "files" (JArr [])) as [|fv]; [discriminate|]. simpl in H.
    destruct (py_iter fv) as [|files]; [discriminate|]. simpl in H.
    destruct (sum_lines fs repo_dir files) as [|ln]; [discriminate|]. simpl in H.
    rewrite Hz in H. simpl in H.
    assert (Hfree' : forall k, k ∈ map fst items ->
              <[l := {| percent := percent_of z total; lines := ln |}]> m !! k = None).
    { intros k Hk. rewrite lookup_insert_ne.
      - apply Hfree. by apply list_elem_of_further.
      - intros ->. contradiction. }
    rewrite (IH _ Hfree' Hnd H).
    rewrite total_percent_insert by (apply Hfree; apply list_elem_of_here).
    simpl. ring.
Qed.

End PercentSum.

Lemma foldr_percent_error (total : Z) (zs : list Z) :
  (0 < total)%Z -> (100 * total < 2 ^ 53)%Z ->
  Forall (fun z => 0 <= z <= total)%Z zs ->
  (Qabs (foldr (fun z acc => percent_of z total + acc) 0 zs -
         inject_Z (foldr Z.add 0%Z zs) * (100 / inject_Z total))
   <= inject_Z (Z.of_nat (length zs)) * ((1 # 200) + 200 * F.u))%Q.
Proof.
  intros Ht Hb Hall. induction Hall as [|z zs Hz Hall IH]; cbn [foldr length].
  - discriminate.
  - pose proof (percent_of_error z total Hz Ht Hb) as Hz'.
    assert (E : (percent_of z total + foldr (fun z acc => percent_of z total + acc) 0 zs -
                 inject_Z (z + foldr Z.add 0%Z zs) * (100 / inject_Z total) ==
                 (percent_of z total - inject_Z z * (100 / inject_Z total)) +
                 (foldr (fun z acc => percent_of z total + acc) 0 zs -
                  inject_Z (foldr Z.add 0%Z zs) * (100 / inject_Z total)))%Q).
    { rewrite inject_Z_plus. ring. }
    rewrite E. eapply Qle_trans; [apply Qabs_triangle|].
    rewrite Nat2Z.inj_succ, <- Z.add_1_l, inject_Z_plus.
    assert (R : ((inject_Z 1 + inject_Z (Z.of_nat (length zs))) * ((1 # 200) + 200 * F.u) ==
                 ((1 # 200) + 200 * F.u) +
                 inject_Z (Z.of_nat (length zs)) * ((1 # 200) + 200 * F.u))%Q) by ring.
    rewrite R. apply Qplus_le_compat; assumption.
Qed.

Lemma sizes_le_sum (zs : list Z) :
  Forall (fun z => 0 <= z)%Z zs -> Forall (fun z => z <= foldr Z.add 0 zs)%Z zs.
Proof.
  induction 1 as [|z zs Hz Hall IH]; simpl; constructor.
  - assert (0 <= foldr Z.add 0 zs)%Z.
    { clear IH. induction Hall; simpl; lia. }
    lia.
  - eapply Forall_impl; [exact IH|]. intros x Hx. simpl in Hx. lia.
Qed.

Lemma Forall2_size_in (items : list (string * json)) (zs : list Z) (l : string) (info : json) (z : Z) :
  Forall2 (fun kv z => get_size kv.2 = inr z) items zs ->
  (l, info) ∈ items -> get_size info = inr z -> z ∈ zs.
Proof.
  induction 1 as [|[l' i'] z' items zs Hz' Hzs IH]; intros Hin Hz.
  - apply elem_of_nil in Hin. contradiction.
  - apply elem_of_cons in Hin as [Heq|Hin].
    + inversion Heq; subst. simpl in Hz'. rewrite Hz in Hz'. inversion Hz'. apply list_elem_of_here.
    + apply list_elem_of_further. exact (IH Hin Hz).
Qed.

(** C5 (amended): when every reported size is a non-negative integer, their
    sum [s] is positive (some language has a nonzero size) and [100 * s]
    stays below [2^53], every percentage lies in [0, 100] and the sum of
    the percentages is within [n * (1/200 + 10^-13)] of 100, [n] being the
    number of languages. *)
Theorem aggregate_percent_range (fs : fsys) (repo_dir : path) (items : list (string * json))
    (s : Z) (stats : gmap string lang_stat) :
  NoDup (map fst items) ->
  Forall (fun kv => forall z, get_size kv.2 = inr z -> (0 <= z)%Z) items ->
  sum_sizes items = inr s -> (0 < s)%Z -> (100 * s < 2 ^ 53)%Z ->
  aggregate fs repo_dir (JObj items) = inr stats ->
  (forall lang st, stats !! lang = Some st -> (0 <= percent st <= 100)%Q) /\
  (Qabs (total_percent stats - 100) <=
     inject_Z (Z.of_nat (length items)) * ((1 # 200) + (1 # 10000000000000)))%Q.
Proof.
  intros Hnd Hnn Hs Hpos Hb Hagg.
  destruct (aggregate_inv _ _ _ _ Hagg) as (items' & s' & Hv & Hne & Hs' & Hloop).
  inversion Hv; subst items'. rewrite Hs in Hs'. inversion Hs'; subst s'.
  replace (if Z.eqb s 0 then 1%Z else s) with s in Hloop
    by (destruct (Z.eqb_spec s 0); lia).
  destruct (sum_sizes_spec _ _ Hs) as (zs & Hzs & Hsum).
  assert (Hzn : Forall (fun z => 0 <= z)%Z zs).
  { clear - Hzs Hnn. induction Hzs as [|kv z items zs Hz Hzs IH]; constructor;
      inversion Hnn as [|? ? Hh Ht]; subst.
    - apply Hh, Hz.
    - apply IH, Ht. }
  assert (Hzb : Forall (fun z => 0 <= z <= s)%Z zs).
  { apply Forall_and. split; [exact Hzn|]. rewrite Hsum. apply sizes_le_sum, Hzn. }
  split.
  - intros lang st Hst.
    pose proof (elem_of_dom_2 _ _ _ Hst) as Hd.
    rewrite (stats_loop_dom _ _ _ _ _ _ Hloop), dom_empty_L in Hd.
    apply elem_of_union in Hd as [Hd|Hd]; [set_solver|].
    apply elem_of_list_to_set, list_elem_of_fmap in Hd as ([l info] & Hl & Hin).
    simpl in Hl. subst l.
    destruct (stats_loop_lookup fs repo_dir _ _ _ _ lang info Hnd Hloop Hin)
      as (size & fv & files & ln & Hsz & _ & _ & _ & Hl).
    rewrite Hl in Hst. inversion Hst; subst st. simpl.
    pose proof (Forall2_size_in _ _ _ _ _ Hzs Hin Hsz) as Hz.
    rewrite Forall_forall in Hzb. apply percent_of_bounds; [apply Hzb, Hz|lia|lia].
  - rewrite (stats_loop_total fs repo_dir s items zs ∅ stats Hnd) by
      (intros; apply lookup_empty || assumption).
    unfold total_percent at 1. rewrite map_fold_empty.
    pose proof (foldr_percent_error s zs Hpos Hb Hzb) as He.
    rewrite <- Hsum in He.
    assert (H100 : (inject_Z s * (100 / inject_Z s) == 100)%Q).
    { field. intros H. unfold Qeq in H. simpl in H. lia. }
    rewrite H100 in He. rewrite <- (Forall2_length _ _ _ Hzs) in He.
    assert (Hq : (0 + foldr (fun z acc => percent_of z s + acc) 0 zs - 100 ==
                  foldr (fun z acc => percent_of z s + acc) 0 zs - 100)%Q) by ring.
    rewrite Hq. eapply Qle_trans; [exact He|].
    rewrite !(Qmult_comm (inject_Z _)). apply Qmult_le_compat_r.
    + apply Qplus_le_compat; [apply Qle_refl|].
      apply Qle_bool_imp_le. vm_compute. reflexivity.
    + unfold Qle. simpl. lia.
Qed.

(** C5: the sum of the percentages is not within two-decimal rounding
    tolerance of 100 in general: for 150 languages of one byte each, every
    percentage is the float 0.67 and the percentages add up to about 100.5. *)
Lemma percent_sum_counterexample :
  match aggregate ∅ [] (equal_report 150) with
  | inr stats =>
      forallb (fun kv => Qeq_bool (percent kv.2) (F.fl (67 # 100))) (map_to_list stats) = true /\
      (100 + (49 # 100) < total_percent stats < 100 + (51 # 100))%Q
  | inl _ => False
  end.
Proof. vm_compute. split; [reflexivity|split; reflexivity]. Qed.

(* ------------------------------------------------------------------ *)
(** ** Instances of the hypotheses *)

(** The hypothesis of [analyze_zip_not_found] holds on a missing path. *)
Lemma analyze_zip_not_found_witness :
  is_file (st_fs Scenario.start) ["nope"] = false /\
  analyze_zip Scenario.ok_world default_wrapper ["nope"] Scenario.start =
    (Scenario.start, inl (FileNotFoundError ("File not found: " +:+ path_str ["nope"]))).
Proof.
  split; [vm_compute; reflexivity|].
  apply analyze_zip_not_found. vm_compute. reflexivity.
Defined.

(** The hypotheses of [analyze_zip_cleans_up] hold on the scenario. *)
Lemma analyze_zip_cleans_up_witness :
  is_file (st_fs Scenario.start) Scenario.zip_path = true /\
  mkdtemp Scenario.ok_world Scenario.start = (Scenario.start_tmp, inr Scenario.tmp0) /\
  forall k, Scenario.tmp0 `prefix_of` k ->
    st_fs (fst (analyze_zip Scenario.ok_world default_wrapper Scenario.zip_path Scenario.start))
      !! k = None.
Proof.
  split; [vm_compute; reflexivity|]. split; [vm_compute; reflexivity|].
  apply (analyze_zip_cleans_up Scenario.ok_world default_wrapper Scenario.zip_path
           Scenario.start Scenario.start_tmp Scenario.tmp0); vm_compute; reflexivity.
Defined.

(** The hypothesis of [collect_keys_exact] holds on the prepared repository. *)
Lemma collect_keys_exact_witness :
  exists s' stats,
    collect_language_stats Scenario.ok_world default_wrapper Scenario.repo Scenario.repo_state
      = (s', inr stats) /\
    exists s1 items,
      run_linguist_breakdown Scenario.ok_world default_wrapper Scenario.repo Scenario.repo_state
        = (s1, inr (JObj items)) /\
      dom stats = list_to_set (map fst items).
Proof.
  let v := eval vm_compute in
    (collect_language_stats Scenario.ok_world default_wrapper Scenario.repo Scenario.repo_state) in
  match v with (?s', inr ?st) => exists s', st end.
  match goal with |- ?H /\ _ => assert (Hc : H) by (vm_compute; reflexivity) end.
  split; [exact Hc|].
  exact (collect_keys_exact _ _ _ _ _ _ Hc).
Defined.

(** The hypotheses of [aggregate_percent] hold on the scenario's report. *)
Lemma aggregate_percent_witness :
  exists stats,
    NoDup (map fst [("Python", JObj [("size", JInt 250); ("files", JArr [JStr "main.py"])]);
                    ("JavaScript", JObj [("size", JInt 750); ("files", JArr [JStr "lib.js"])])]) /\
    aggregate (st_fs Scenario.repo_state) Scenario.repo Scenario.report = inr stats /\
    exists zs, Forall2 (fun kv z => get_size kv.2 = inr z)
      [("Python", JObj [("size", JInt 250); ("files", JArr [JStr "main.py"])]);
       ("JavaScript", JObj [("size", JInt 750); ("files", JArr [JStr "lib.js"])])] zs /\
    let s := foldr Z.add 0%Z zs in
    let total := if Z.eqb s 0 then 1%Z else s in
    forall lang info,
      (lang, info) ∈ [("Python", JObj [("size", JInt 250); ("files", JArr [JStr "main.py"])]);
                      ("JavaScript", JObj [("size", JInt 750); ("files", JArr [JStr "lib.js"])])] ->
      exists size st, get_size info = inr size /\ stats !! lang = Some st /\
        percent st = F.round2 (F.div (F.mul (F.of_int size) 100) (F.of_int total)).
Proof.
  let v := eval vm_compute in
    (aggregate (st_fs Scenario.repo_state) Scenario.repo Scenario.report) in
  match v with inr ?st => exists st end.
  assert (Hnd : NoDup (map fst [("Python", JObj [("size", JInt 250); ("files", JArr [JStr "main.py"])]);
                    ("JavaScript", JObj [("size", JInt 750); ("files", JArr [JStr "lib.js"])])]))
    by (apply NoDup_cons; split; [simpl; set_solver|apply NoDup_cons; split; [set_solver|constructor]]).
  split; [exact Hnd|].
  match goal with |- ?H /\ _ => assert (Ha : H) by (vm_compute; reflexivity) end.
  split; [exact Ha|].
  exact (aggregate_percent _ _ _ _ Hnd Ha).
Defined.

(** The hypotheses of [aggregate_percent_range]: three one-byte languages. *)
Lemma aggregate_percent_range_witness :
  exists stats,
    aggregate ∅ [] (equal_report 3) = inr stats /\
    (forall lang st, stats !! lang = Some st -> (0 <= percent st <= 100)%Q) /\
    (Qabs (total_percent stats - 100) <= inject_Z 3 * ((1 # 200) + (1 # 10000000000000)))%Q.
Proof.
  let v := eval vm_compute in (aggregate ∅ [] (equal_report 3)) in
  match v with inr ?st => exists st end.
  split; [vm_compute; reflexivity|].
  apply (aggregate_percent_range ∅ []
           [("L0", JObj [("size", JInt 1)]); ("L1", JObj [("size", JInt 1)]);
            ("L2", JObj [("size", JInt 1)])] 3).
  - apply NoDup_cons; split; [set_solver|apply NoDup_cons; split; [set_solver|]].
    apply NoDup_cons; split; [set_solver|constructor].
  - repeat constructor; intros z Hz; inversion Hz; lia.
  - reflexivity.
  - lia.
  - lia.
  - vm_compute. reflexivity.
Defined.

(** The hypotheses of [aggregate_missing_fields] hold on [sparse_items]. *)
Lemma aggregate_missing_fields_witness :
  exists stats, aggregate ∅ [] (JObj Scenario.sparse_items) = inr stats /\
    sum_sizes Scenario.sparse_items =
      inr (foldr Z.add 0%Z (map (fun kv => size_or_zero kv.2) Scenario.sparse_items)) /\
    forall lang kvs, (lang, JObj kvs) ∈ Scenario.sparse_items ->
      exists st, stats !! lang = Some st /\
        (assoc "size" kvs = None -> percent st = 0%Q) /\
        (assoc "files" kvs = None -> lines st = 0%nat).
Proof.
  apply aggregate_missing_fields.
  - discriminate.
  - apply NoDup_cons; split; [set_solver|apply NoDup_cons; split; [set_solver|constructor]].
  - intros lang info Hin. unfold Scenario.sparse_items in Hin.
    apply elem_of_cons in Hin as [Hin|Hin]; [|apply elem_of_cons in Hin as [Hin|Hin]].
    + inversion Hin; subst. exists []. split; [reflexivity|]. split; left; reflexivity.
    + inversion Hin; subst. exists [("size", JInt 5)]. split; [reflexivity|].
      split; [right; exists 5%Z; reflexivity|left; reflexivity].
    + apply elem_of_nil in Hin. contradiction.
Defined.

(** The hypotheses of [classifier_failure_reported], in container mode. *)
Lemma classifier_failure_reported_witness :
  linguist_command Scenario.fail_world Scenario.docker_wrapper BREAKDOWN_ARGS Scenario.repo
    Scenario.repo_state = (Scenario.repo_state, inr Scenario.docker_cmd) /\
  subprocess_run Scenario.fail_world Scenario.docker_cmd.1 Scenario.docker_cmd.2
    (st_fs Scenario.repo_state) = inr Scenario.fail_result /\
  returncode Scenario.fail_result <> 0%Z /\
  collect_language_stats Scenario.fail_world Scenario.docker_wrapper Scenario.repo
    Scenario.repo_state =
    ({| st_fs := st_fs Scenario.repo_state; st_names := 0 |},
     inl (RuntimeError "github-linguist failed with code 2: boom")).
Proof.
  split; [vm_compute; reflexivity|]. split; [vm_compute; reflexivity|].
  split; [discriminate|].
  apply (classifier_failure_reported Scenario.fail_world Scenario.docker_wrapper Scenario.repo
           Scenario.repo_state Scenario.docker_cmd Scenario.fail_result);
    [vm_compute; reflexivity|vm_compute; reflexivity|discriminate].
Defined.

(** The hypotheses of [report_validation], in local mode. *)
Lemma report_validation_witness :
  linguist_command Scenario.ok_world default_wrapper BREAKDOWN_ARGS Scenario.repo
    Scenario.repo_state = (Scenario.repo_state, inr Scenario.local_cmd) /\
  subprocess_run Scenario.ok_world Scenario.local_cmd.1 Scenario.local_cmd.2
    (st_fs Scenario.repo_state) = inr Scenario.ok_result /\
  returncode Scenario.ok_result = 0%Z /\
  forall s' stats,
    collect_language_stats Scenario.ok_world default_wrapper Scenario.repo Scenario.repo_state
      = (s', inr stats) -> stats <> ∅.
Proof.
  split; [vm_compute; reflexivity|]. split; [vm_compute; reflexivity|].
  split; [reflexivity|].
  apply (report_validation Scenario.ok_world default_wrapper Scenario.repo Scenario.repo_state
           Scenario.local_cmd Scenario.ok_result);
    [vm_compute; reflexivity|vm_compute; reflexivity|reflexivity].
Defined.

(* ================================================================== *)
(** * Further properties of the pipeline *)

Lemma prefix_strict_snoc (a b : path) (x : string) :
  a `prefix_of` b ++ [x] -> a <> b ++ [x] -> a `prefix_of` b.
Proof.
  intros Ha Hne.
  destruct (prefix_weak_total a b (b ++ [x]) Ha ltac:(apply prefix_app_r; reflexivity))
    as [H|[z ->]]; [exact H|].
  apply prefix_app_inv in Ha. destruct z as [|y z].
  - rewrite app_nil_r. reflexivity.
  - pose proof (prefix_cons_inv_1 _ _ _ _ Ha) as <-.
    apply prefix_cons_inv_2, prefix_nil_inv in Ha. subst z. contradiction.
Qed.

Lemma removelast_prefix (l : path) : removelast l `prefix_of` l.
Proof.
  induction l as [|a l IH]; simpl; [reflexivity|].
  destruct l as [|b l]; [apply prefix_nil|]. apply prefix_cons, IH.
Qed.

Lemma mkdtemp_loop_spec (E : env) (fuel : nat) (s : state) :
  match mkdtemp_loop E fuel s with
  | (s1, inr t) =>
      st_fs s !! t = None /\ st_fs s1 = <[t := NDir]> (st_fs s) /\
      exists n, t = tmp_root E ++ [tmp_name E n] /\ (st_names s <= n)%nat /\ st_names s1 = S n
  | (s1, inl e) => e = FileExistsError /\ st_fs s1 = st_fs s
  end.
Proof.
  revert s. induction fuel as [|fuel IH]; intros s; simpl.
  - split; reflexivity.
  - destruct (st_fs s !! (tmp_root E ++ [tmp_name E (st_names s)])) as [n|] eqn:Hl.
    + specialize (IH {| st_fs := st_fs s; st_names := S (st_names s) |}).
      destruct (mkdtemp_loop E fuel _) as [s1 [e|t]]; simpl in IH.
      * exact IH.
      * destruct IH as (H1 & H2 & m & Ht & Hm & Hs). split; [exact H1|]. split; [exact H2|].
        exists m. split; [exact Ht|]. split; [lia|exact Hs].
    + split; [exact Hl|]. split; [reflexivity|].
      exists (st_names s). split; [reflexivity|]. split; [lia|reflexivity].
Qed.

Lemma detect_project_root_below (fs : fsys) (d : path) :
  exists r, detect_project_root fs d = d ++ r.
Proof.
  unfold detect_project_root.
  repeat case_match; first [exists []; by rewrite app_nil_r | eexists; reflexivity].
Qed.

Lemma makedirs_agree (t : path) (fs0 : fsys) (rest pre : path) (fs fs' : fsys) :
  agree_outside t fs fs0 ->
  (forall r, r `prefix_of` rest -> r <> [] -> ~ t `prefix_of` pre ++ r ->
     fs0 !! (pre ++ r) <> None) ->
  makedirs fs pre rest = inr fs' -> agree_outside t fs' fs0.
Proof.
  revert pre fs. induction rest as [|c rest IH]; intros pre fs Hag Hc H; simpl in H.
  - inversion H; subst. exact Hag.
  - assert (Hc' : forall r, r `prefix_of` rest -> r <> [] ->
              ~ t `prefix_of` (pre ++ [c]) ++ r -> fs0 !! ((pre ++ [c]) ++ r) <> None).
    { intros r Hr Hne Ht. rewrite <- app_assoc. simpl.
      apply Hc; [apply prefix_cons, Hr|discriminate|rewrite <- app_assoc in Ht; exact Ht]. }
    destruct (fs !! (pre ++ [c])) as [[|? ?|]|] eqn:Hl; try discriminate.
    + exact (IH _ _ Hag Hc' H).
    + refine (IH _ _ _ Hc' H).
      intros k Hk. rewrite lookup_insert_ne; [apply Hag, Hk|].
      intros <-. apply (Hc [c]); [apply prefix_cons, prefix_nil|discriminate|exact Hk|].
      rewrite <- (Hag _ Hk). exact Hl.
Qed.

Lemma extract_member_agree (t : path) (fs0 fs fs' : fsys) (m : list string * member) :
  (forall k, k <> [] -> k `prefix_of` t -> k <> t -> fs0 !! k = Some NDir) ->
  agree_outside t fs fs0 -> extract_member t fs m = inr fs' -> agree_outside t fs' fs0.
Proof.
  intros Hdirs Hag H. destruct m as [parts kind]. unfold extract_member in H. simpl in H.
  destruct (makedirs fs [] (removelast (t ++ sanitize parts))) as [|fs1] eqn:Hm;
    [discriminate|]. simpl in H.
  assert (Hag1 : agree_outside t fs1 fs0).
  { apply (makedirs_agree t fs0 (removelast (t ++ sanitize parts)) [] fs fs1 Hag); [|exact Hm].
    intros r Hr Hne Ht. simpl in *.
    assert (Hrt : r `prefix_of` t ++ sanitize parts)
      by (transitivity (removelast (t ++ sanitize parts)); [exact Hr|apply removelast_prefix]).
    destruct (prefix_weak_total r t _ Hrt ltac:(apply prefix_app_r; reflexivity)) as [H1|H1];
      [|contradiction].
    rewrite (Hdirs r Hne H1); [discriminate|]. intros ->. apply Ht. reflexivity. }
  assert (Htg : t `prefix_of` t ++ sanitize parts) by (apply prefix_app_r; reflexivity).
  destruct kind; destruct (fs1 !! (t ++ sanitize parts)) as [[|? ?|]|];
    inversion H; subst; try exact Hag1;
    intros k Hk; (rewrite lookup_insert_ne by (intros <-; contradiction)); apply Hag1, Hk.
Qed.

Lemma extract_all_agree (t : path) (fs0 : fsys) (ms : list (list string * member))
    (fs fs' : fsys) :
  (forall k, k <> [] -> k `prefix_of` t -> k <> t -> fs0 !! k = Some NDir) ->
  agree_outside t fs fs0 -> extract_all t fs ms = inr fs' -> agree_outside t fs' fs0.
Proof.
  intros Hdirs. revert fs. induction ms as [|m ms IH]; intros fs Hag H; simpl in H.
  - inversion H; subst. exact Hag.
  - destruct (extract_member t fs m) as [|fs1] eqn:He; [discriminate|]. simpl in H.
    exact (IH fs1 (extract_member_agree t fs0 fs fs1 m Hdirs Hag He) H).
Qed.

Lemma bind_preserves {A B} (P : state -> Prop) (m : M A) (k : A -> M B) :
  (forall s, P s -> P (fst (m s))) -> (forall a s, P s -> P (fst (k a s))) ->
  forall s, P s -> P (fst (bind m k s)).
Proof.
  intros Hm Hk s Hs. unfold bind. specialize (Hm s Hs).
  destruct (m s) as [s' [e|a]]; simpl in *; auto.
Qed.

Lemma unzip_agree (E : env) (p t : path) (fs0 : fsys) (s : state) :
  (forall k, k <> [] -> k `prefix_of` t -> k <> t -> fs0 !! k = Some NDir) ->
  agree_outside t (st_fs s) fs0 -> agree_outside t (st_fs (fst (unzip E p t s))) fs0.
Proof.
  intros Hdirs Hag. unfold unzip, bind, get_fs, lift, put_fs.
  destruct (open_rb (st_fs s) p) as [e|bs]; [exact Hag|].
  destruct (zip_members E bs) as [ms|]; [|exact Hag].
  destruct (extract_all t (st_fs s) ms) as [e|fs'] eqn:He; [exact Hag|].
  exact (extract_all_agree t fs0 ms _ _ Hdirs Hag He).
Qed.

Lemma run_git_agree (E : env) (t r : path) (fs0 : fsys) (cmd : list string) (s : state) :
  writes_below_cwd E -> t `prefix_of` r ->
  agree_outside t (st_fs s) fs0 -> agree_outside t (st_fs (fst (run_git E r cmd s))) fs0.
Proof.
  intros Hsub Htr Hag. unfold run_git, bind, get_fs, lift, put_fs.
  destruct (subprocess_run E cmd (Some r) (st_fs s)) as [e|res] eqn:Hr; [exact Hag|].
  assert (Hag' : agree_outside t (fs_after res) fs0).
  { intros k Hk. rewrite (Hsub _ _ _ _ Hr k); [apply Hag, Hk|].
    intros d Hd Hdk. injection Hd as <-. apply Hk. transitivity r; assumption. }
  destruct (Z.eqb (returncode res) 0); exact Hag'.
Qed.

Lemma init_git_repo_agree (E : env) (t r : path) (fs0 : fsys) (s : state) :
  writes_below_cwd E -> t `prefix_of` r ->
  agree_outside t (st_fs s) fs0 -> agree_outside t (st_fs (fst (init_git_repo E r s))) fs0.
Proof.
  intros Hsub Htr. revert s. unfold init_git_repo.
  apply (bind_preserves (fun s => agree_outside t (st_fs s) fs0));
    [intros; apply run_git_agree; assumption|intros _].
  apply (bind_preserves (fun s => agree_outside t (st_fs s) fs0));
    intros; apply run_git_agree; assumption.
Qed.

Lemma linguist_command_state (E : env) (w : wrapper) (args : list string) (r : path)
    (s : state) :
  fst (linguist_command E w args r s) = s /\
  forall c, snd (linguist_command E w args r s) = inr c -> c.2 = None \/ c.2 = Some r.
Proof.
  unfold linguist_command. destruct (use_docker w).
  - unfold os_stat, bind, get_fs, ret, raise. cbv beta iota.
    destruct (st_fs s !! r) as [[|? ?|]|]; split; try reflexivity;
      intros c H; simpl in H; inversion H; auto.
  - split; [reflexivity|]. intros c H. inversion H. auto.
Qed.

Lemma execute_linguist_agree (E : env) (w : wrapper) (t : path) (fs0 : fsys)
    (args : list string) (r : path) (s : state) :
  writes_below_cwd E -> t `prefix_of` r ->
  agree_outside t (st_fs s) fs0 ->
  agree_outside t (st_fs (fst (execute_linguist E w args r s))) fs0.
Proof.
  intros Hsub Htr Hag. unfold execute_linguist. unfold bind at 1.
  destruct (linguist_command_state E w args r s) as [Hs Hcwd].
  destruct (linguist_command E w args r s) as [s1 [e|c]]; simpl in Hs, Hcwd; subst s1;
    [exact Hag|].
  specialize (Hcwd c eq_refl).
  unfold bind, get_fs, lift, put_fs.
  destruct (subprocess_run E c.1 c.2 (st_fs s)) as [e|res] eqn:Hr; [exact Hag|].
  assert (Hag' : agree_outside t (fs_after res) fs0).
  { intros k Hk. rewrite (Hsub _ _ _ _ Hr k); [apply Hag, Hk|].
    intros d Hd Hdk. destruct Hcwd as [H|H]; rewrite H in Hd; [discriminate|].
    injection Hd as <-. apply Hk. transitivity r; assumption. }
  destruct (negb _); exact Hag'.
Qed.

Lemma collect_language_stats_agree (E : env) (w : wrapper) (t : path) (fs0 : fsys)
    (r : path) (s : state) :
  writes_below_cwd E -> t `prefix_of` r ->
  agree_outside t (st_fs s) fs0 ->
  agree_outside t (st_fs (fst (collect_language_stats E w r s))) fs0.
Proof.
  intros Hsub Htr. revert s. unfold collect_language_stats, run_linguist_breakdown.
  apply (bind_preserves (fun s => agree_outside t (st_fs s) fs0)); [|intros; assumption].
  apply (bind_preserves (fun s => agree_outside t (st_fs s) fs0)); [|intros; assumption].
  intros; apply execute_linguist_agree; assumption.
Qed.

(** [shutil.rmtree] of a directory created fresh undoes its creation and
    everything done below it. *)
Lemma rmtree_restore (t : path) (fs fs' : fsys) :
  fs !! t = None -> t <> [] -> parent_closed fs -> agree_outside t fs' fs ->
  rmtree t fs' = fs.
Proof.
  intros Hfresh Hne Hpc Hag. apply map_eq. intros k. unfold rmtree.
  destruct (decide (t `prefix_of` k)) as [[r ->]|Hk].
  - rewrite map_lookup_filter_None_2; [|right; intros ? _; simpl; intros Hn; apply Hn;
                                          apply prefix_app_r; reflexivity].
    symmetry. destruct r as [|x r]; [by rewrite app_nil_r|].
    destruct (fs !! (t ++ x :: r)) as [v|] eqn:Hv; [|reflexivity].
    rewrite (Hpc t (x :: r) v Hv Hne ltac:(discriminate)) in Hfresh. discriminate.
  - rewrite <- (Hag k Hk). destruct (fs' !! k) as [v|] eqn:Hv.
    + apply map_lookup_filter_Some_2; [exact Hv|exact Hk].
    + apply map_lookup_filter_None_2. left. exact Hv.
Qed.

Lemma mkdtemp_spec (E : env) (s : state) :
  match mkdtemp E s with
  | (s1, inr t) =>
      st_fs s !! t = None /\ st_fs s1 = <[t := NDir]> (st_fs s) /\
      exists n, t = tmp_root E ++ [tmp_name E n] /\ (st_names s <= n)%nat /\ st_names s1 = S n
  | (s1, inl e) => e = FileExistsError /\ st_fs s1 = st_fs s
  end.
Proof. exact (mkdtemp_loop_spec E TMP_MAX s). Qed.


Lemma tmp_parents (E : env) (fs : fsys) (n : nat) :
  (forall k, k <> [] -> k `prefix_of` tmp_root E -> fs !! k = Some NDir) ->
  forall k, k <> [] -> k `prefix_of` tmp_root E ++ [tmp_name E n] ->
    k <> tmp_root E ++ [tmp_name E n] -> fs !! k = Some NDir.
Proof.
  intros Hroot k Hne Hk Hk'. apply Hroot; [exact Hne|]. exact (prefix_strict_snoc _ _ _ Hk Hk').
Qed.

(** X3: [analyze_zip] leaves the file system exactly as it found it, on
    every outcome (success or any exception), when the processes it runs
    write only below their working directory, the temporary root and its
    parents are directories and the file system is closed under parents. *)
Theorem analyze_zip_restores_fs (E : env) (w : wrapper) (p : path) (s : state) :
  writes_below_cwd E ->
  (forall k, k <> [] -> k `prefix_of` tmp_root E -> st_fs s !! k = Some NDir) ->
  parent_closed (st_fs s) ->
  st_fs (fst (analyze_zip E w p s)) = st_fs s.
Proof.
  intros Hsub Hroot Hpc. unfold analyze_zip at 1, bind at 1, get_fs at 1. cbv beta iota.
  destruct (negb (is_file (st_fs s) p)); [reflexivity|].
  unfold with_tempdir. pose proof (mkdtemp_spec E s) as Hmk.
  destruct (mkdtemp E s) as [s1 [e|t]]; [apply Hmk|].
  destruct Hmk as (Hfresh & Hs1 & n & Ht & _ & _).
  set (P := fun s' => agree_outside t (st_fs s') (st_fs s)).
  match goal with |- context [?b s1] =>
    assert (Hb : P (fst (b s1))); [|destruct (b s1) as [s2 r]] end.
  - assert (Hdirs : forall k, k <> [] -> k `prefix_of` t -> k <> t -> st_fs s !! k = Some NDir)
      by (rewrite Ht; apply tmp_parents; exact Hroot).
    assert (H1 : P s1).
    { intros k Hk. rewrite Hs1, lookup_insert_ne; [reflexivity|].
      intros <-. apply Hk. reflexivity. }
    clear Hs1. revert s1 H1.
    apply (bind_preserves P); [intros; apply unzip_agree; assumption|intros _].
    apply (bind_preserves P); [intros; assumption|intros fs1].
    destruct (detect_project_root_below fs1 t) as [r Hr]. rewrite Hr.
    assert (Htr : t `prefix_of` t ++ r) by (apply prefix_app_r; reflexivity).
    apply (bind_preserves P); [intros; apply init_git_repo_agree; assumption|intros _].
    intros; apply collect_language_stats_agree; assumption.
  - cbn [fst st_fs] in *. apply rmtree_restore; [exact Hfresh| |exact Hpc|exact Hb].
    rewrite Ht. destruct (tmp_root E); discriminate.
Qed.

Lemma resolve_parents_cons2 (fs : fsys) (pre : path) (c c' : string) (rest : path) :
  resolve_parents fs pre (c :: c' :: rest) =
  match fs !! (pre ++ [c]) with
  | Some NDir => resolve_parents fs (pre ++ [c]) (c' :: rest)
  | Some (NFile _ _) => Some NotADirectoryError
  | _ => Some (FileNotFoundError "No such file or directory")
  end.
Proof. reflexivity. Qed.

Lemma resolve_parents_insert (fs : fsys) (t : path) (x : node) (pre rest : path) :
  fs !! t = None -> resolve_parents fs pre rest = None ->
  resolve_parents (<[t := x]> fs) pre rest = None.
Proof.
  revert pre. induction rest as [|c rest IH]; intros pre Ht H; [reflexivity|].
  destruct rest as [|c' rest']; [reflexivity|].
  rewrite resolve_parents_cons2 in H |- *.
  destruct (fs !! (pre ++ [c])) as [[|? ?|]|] eqn:Hl; try discriminate.
  rewrite lookup_insert_ne by (intros ->; congruence). rewrite Hl. apply IH; assumption.
Qed.

Lemma open_rb_insert (fs : fsys) (t : path) (x : node) (p : path) (bs : list Byte.byte) :
  fs !! t = None -> open_rb fs p = inr bs -> open_rb (<[t := x]> fs) p = inr bs.
Proof.
  intros Ht H. unfold open_rb in *.
  destruct (resolve_parents fs [] p) eqn:Hr; [discriminate|].
  rewrite (resolve_parents_insert _ _ _ _ _ Ht Hr).
  destruct p as [|c p]; [discriminate|].
  destruct (fs !! (c :: p)) as [[|[] ?|]|] eqn:Hl; try discriminate.
  rewrite lookup_insert_ne by (intros ->; congruence). rewrite Hl. exact H.
Qed.

Lemma open_rb_is_file (fs : fsys) (p : path) (bs : list Byte.byte) :
  open_rb fs p = inr bs -> is_file fs p = true.
Proof.
  unfold open_rb, is_file. destruct (resolve_parents fs [] p); [discriminate|].
  destruct p as [|c p]; [discriminate|].
  destruct (fs !! (c :: p)) as [[|[] ?|]|]; try discriminate. reflexivity.
Qed.

(** X4: an input file that can be read but is not a ZIP archive makes
    [analyze_zip] raise [BadZipFile] after creating (and removing) its
    temporary directory; no command is run and the file system is as before. *)
Theorem analyze_zip_bad_archive (E : env) (w : wrapper) (p : path) (s s1 : state) (t : path)
    (bs : list Byte.byte) :
  open_rb (st_fs s) p = inr bs -> zip_members E bs = None ->
  mkdtemp E s = (s1, inr t) -> parent_closed (st_fs s) ->
  analyze_zip E w p s = ({| st_fs := st_fs s; st_names := st_names s1 |}, inl BadZipFile).
Proof.
  intros Hopen Hzip Hmk Hpc.
  pose proof (mkdtemp_spec E s) as Hs. rewrite Hmk in Hs.
  destruct Hs as (Hfresh & Hs1 & n & Ht & _ & _).
  unfold analyze_zip at 1, bind at 1, get_fs at 1. cbv beta iota.
  rewrite (open_rb_is_file _ _ _ Hopen). change (negb true) with false. cbv beta iota.
  unfold with_tempdir. rewrite Hmk.
  assert (Hu : unzip E p t s1 = (s1, inl BadZipFile)).
  { unfold unzip, bind, get_fs, lift. rewrite Hs1, (open_rb_insert _ _ _ _ _ Hfresh Hopen).
    rewrite Hzip. reflexivity. }
  rewrite (bind_inl _ _ _ _ _ Hu). cbv beta iota. do 2 f_equal.
  rewrite Hs1. apply rmtree_restore; [exact Hfresh| |exact Hpc|].
  - rewrite Ht. destruct (tmp_root E); discriminate.
  - intros k Hk. rewrite lookup_insert_ne; [reflexivity|]. intros <-. apply Hk. reflexivity.
Qed.





Section PercentExact.
Local Open Scope Q_scope.

Lemma inject_Z_close (a b : Z) :
  - (3 # 4) <= inject_Z a - inject_Z b <= 3 # 4 -> a = b.
Proof.
  intros [H1 H2]. unfold Qle, Qminus, Qplus, Qopp, inject_Z in *. simpl in *. lia.
Qed.

(** X8: when [size * 100 / total] has at most two decimals ([k / 100]),
    the percentage is exactly the float nearest to [k / 100]: the two
    float roundings do not move it, for totals below [2^53 / 100]. *)
Theorem percent_of_two_decimals (size total k : Z) :
  (0 <= size <= total)%Z -> (0 < total)%Z -> (100 * total < 2 ^ 53)%Z ->
  (size * 10000 = k * total)%Z ->
  percent_of size total = F.fl (inject_Z k / 100).
Proof.
  intros Hs Ht Hsm Hk.
  destruct (div_step_bounds size total Hs Ht Hsm) as [_ Hx].
  assert (Hp : exact_percent size total == inject_Z k / 100).
  { assert (Hz : ~ inject_Z total == 0) by (unfold Qeq; simpl; lia).
    apply (Qmult_inj_r _ _ (inject_Z total * 100)).
    - intros H. apply Hz. unfold Qeq in *. simpl in *. lia.
    - unfold exact_percent.
      assert (E1 : inject_Z size * (100 / inject_Z total) * (inject_Z total * 100)
                   == inject_Z size * 10000) by (field; exact Hz).
      assert (E2 : inject_Z k / 100 * (inject_Z total * 100) == inject_Z k * inject_Z total)
        by field.
      rewrite E1, E2. unfold Qeq. simpl. lia. }
  unfold percent_of, F.round2.
  set (x := F.div (F.mul (F.of_int size) 100) (F.of_int total)) in *.
  rewrite Hp in Hx.
  assert (Hx' : Qabs (x * 100 - inject_Z k) <= 100 * (100 * F.u)).
  { assert (E : x * 100 - inject_Z k == (x - inject_Z k / 100) * 100) by field.
    rewrite E, Qabs_Qmult. change (Qabs 100) with 100.
    apply Qle_trans with (100 * F.u * 100); [apply Qmult_le_compat_r; [exact Hx|discriminate]|].
    rewrite Qmult_comm. apply Qle_refl. }
  assert (Hu : 100 * (100 * F.u) <= 1 # 4) by (vm_compute; discriminate).
  pose proof (FFacts.rne_err (x * 100)) as Hr.
  replace (F.rne (x * 100)) with k; [reflexivity|].
  symmetry. apply inject_Z_close.
  apply Qabs_Qle_condition in Hx', Hr.
  set (c := 100 * (100 * F.u)) in *. clearbody c. lra.
Qed.



Lemma sum_sizes_app_error (pre post : list (string * json)) (l : string) (v : json) (e : exn) :
  Forall (fun kv => exists z, get_size kv.2 = inr z) pre -> get_size v = inl e ->
  sum_sizes (pre ++ (l, v) :: post) = inl e.
Proof.
  intros Hpre Hv. induction Hpre as [|[l' i] pre [z Hz] Hpre IH]; simpl.
  - rewrite Hv. reflexivity.
  - simpl in Hz. rewrite Hz. simpl. rewrite IH. reflexivity.
Qed.

(** X10: the sizes of all entries are read before any entry is processed:
    the first entry whose size cannot be read (a value that is not an
    object, or a size that is not a number) makes the aggregation fail with
    that error, however the later entries look. *)
Theorem aggregate_first_bad_size (fs : fsys) (repo_dir : path)
    (pre post : list (string * json)) (l : string) (v : json) (e : exn) :
  Forall (fun kv => exists z, get_size kv.2 = inr z) pre -> get_size v = inl e ->
  aggregate fs repo_dir (JObj (pre ++ (l, v) :: post)) = inl e.
Proof.
  intros Hpre Hv. unfold aggregate.
  replace (falsy (JObj (pre ++ (l, v) :: post))) with false by (destruct pre; reflexivity).
  rewrite (sum_sizes_app_error _ _ _ _ _ Hpre Hv). reflexivity.
Qed.

End PercentExact.

Lemma stats_loop_app_error (fs : fsys) (r : path) (total : Z)
    (pre post : list (string * json)) (l : string) (v : json) (e : exn)
    (m : gmap string lang_stat) :
  Forall (fun kv => exists z, get_size kv.2 = inr z) pre ->
  Forall (fun kv => exists fv files ln, py_get kv.2 "files" (JArr []) = inr fv /\
            py_iter fv = inr files /\ sum_lines fs r files = inr ln) pre ->
  (py_get v "files" (JArr []) = inl e \/
   (exists fv, py_get v "files" (JArr []) = inr fv /\ py_iter fv = inl e) \/
   (exists fv files, py_get v "files" (JArr []) = inr fv /\ py_iter fv = inr files /\
                     sum_lines fs r files = inl e)) ->
  stats_loop fs r total (pre ++ (l, v) :: post) m = inl e.
Proof.
  intros Hsz Hfl Hv. revert m. induction pre as [|[l' i] pre IH]; intros m; simpl.
  - destruct Hv as [H|[(fv & H1 & H2)|(fv & files & H1 & H2 & H3)]].
    + rewrite H. reflexivity.
    + rewrite H1. simpl. rewrite H2. reflexivity.
    + rewrite H1. simpl. rewrite H2. simpl. rewrite H3. reflexivity.
  - inversion Hsz as [|? ? [z Hz] Hsz']; subst. inversion Hfl as [|? ? (fv & files & ln & H1 & H2 & H3) Hfl']; subst.
    simpl in *. rewrite H1. simpl. rewrite H2. simpl. rewrite H3. simpl. rewrite Hz. simpl.
    apply IH; assumption.
Qed.

(** X11: when all sizes are numbers, the entries are processed in report
    order and the first whose file list cannot be used (the value is not
    an object, the list is not iterable, a name is not a string, or a
    line count raises, as [NotADirectoryError] below a regular file does)
    makes the whole aggregation fail with that error: there is no partial
    result. *)
Theorem aggregate_first_bad_files (fs : fsys) (repo_dir : path)
    (pre post : list (string * json)) (l : string) (v : json) (e : exn) :
  Forall (fun kv => exists z, get_size kv.2 = inr z) (pre ++ (l, v) :: post) ->
  Forall (fun kv => exists fv files ln, py_get kv.2 "files" (JArr []) = inr fv /\
            py_iter fv = inr files /\ sum_lines fs repo_dir files = inr ln) pre ->
  (py_get v "files" (JArr []) = inl e \/
   (exists fv, py_get v "files" (JArr []) = inr fv /\ py_iter fv = inl e) \/
   (exists fv files, py_get v "files" (JArr []) = inr fv /\ py_iter fv = inr files /\
                     sum_lines fs repo_dir files = inl e)) ->
  aggregate fs repo_dir (JObj (pre ++ (l, v) :: post)) = inl e.
Proof.
  intros Hsz Hfl Hv. unfold aggregate.
  replace (falsy (JObj (pre ++ (l, v) :: post))) with false by (destruct pre; reflexivity).
  destruct (sum_sizes_ok (pre ++ (l, v) :: post)) as [s Hs].
  { intros lang info Hin. rewrite Forall_forall in Hsz. exact (Hsz _ Hin). }
  rewrite Hs. simpl. apply stats_loop_app_error; [|exact Hfl|exact Hv].
  apply Forall_app in Hsz. exact (proj1 Hsz).
Qed.


(* ------------------------------------------------------------------ *)
(** ** Instances of the hypotheses of the further properties *)

Lemma prefix_of_cons_cases (k : path) (a : string) (l : path) :
  k `prefix_of` a :: l -> k = [] \/ exists k', k = a :: k' /\ k' `prefix_of` l.
Proof.
  destruct k as [|x k]; [left; reflexivity|]. intros H. right. exists k.
  pose proof (prefix_cons_inv_1 _ _ _ _ H) as ->.
  split; [reflexivity|exact (prefix_cons_inv_2 _ _ _ _ H)].
Qed.

Lemma git_world_writes_below_cwd : writes_below_cwd Scenario.git_world.
Proof.
  intros cmd cwd fs res H k Hk. injection H as <-. simpl.
  destruct cwd as [d|]; [|reflexivity].
  rewrite lookup_insert_ne; [reflexivity|]. intros <-.
  apply (Hk d eq_refl). apply prefix_app_r. reflexivity.
Qed.

Lemma flat_start_parent_closed : parent_closed (st_fs Scenario.flat_start).
Proof.
  intros k r v H Hk Hr. exfalso.
  assert (Hlen : length (k ++ r) = 1%nat).
  { unfold Scenario.flat_start in H. simpl in H.
    repeat (apply lookup_insert_Some in H; destruct H as [[Heq _]|[_ H]];
            [rewrite <- Heq; reflexivity|]).
    apply lookup_singleton_Some in H as [Heq _]. rewrite <- Heq. reflexivity. }
  rewrite length_app in Hlen. destruct k, r; simpl in *; try congruence; lia.
Qed.

Lemma flat_start_tmp_root :
  forall k, k <> [] -> k `prefix_of` tmp_root Scenario.git_world ->
    st_fs Scenario.flat_start !! k = Some NDir.
Proof.
  intros k Hne Hk. simpl in Hk.
  destruct (prefix_of_cons_cases _ _ _ Hk) as [->|(k' & -> & Hk')]; [congruence|].
  apply prefix_nil_inv in Hk' as ->. vm_compute. reflexivity.
Qed.



(** The hypotheses of [analyze_zip_restores_fs] hold on a concrete input. *)
Lemma analyze_zip_restores_fs_witness :
  writes_below_cwd Scenario.git_world /\
  (forall k, k <> [] -> k `prefix_of` tmp_root Scenario.git_world ->
     st_fs Scenario.flat_start !! k = Some NDir) /\
  parent_closed (st_fs Scenario.flat_start) /\
  st_fs (fst (analyze_zip Scenario.git_world default_wrapper ["a.zip"] Scenario.flat_start))
    = st_fs Scenario.flat_start.
Proof.
  split; [exact git_world_writes_below_cwd|].
  split; [exact flat_start_tmp_root|].
  split; [exact flat_start_parent_closed|].
  exact (analyze_zip_restores_fs _ _ _ _ git_world_writes_below_cwd flat_start_tmp_root
           flat_start_parent_closed).
Defined.

(** The hypotheses of [analyze_zip_bad_archive] hold on a concrete input. *)
Lemma analyze_zip_bad_archive_witness :
  open_rb (st_fs Scenario.flat_start) ["b.zip"] = inr [Byte.x00] /\
  zip_members Scenario.git_world [Byte.x00] = None /\
  mkdtemp Scenario.git_world Scenario.flat_start =
    ({| st_fs := <[["tmp"; "tmp0"] := NDir]> (st_fs Scenario.flat_start); st_names := 1 |},
     inr ["tmp"; "tmp0"]) /\
  parent_closed (st_fs Scenario.flat_start) /\
  analyze_zip Scenario.git_world default_wrapper ["b.zip"] Scenario.flat_start =
    ({| st_fs := st_fs Scenario.flat_start; st_names := 1 |}, inl BadZipFile).
Proof.
  assert (H1 : open_rb (st_fs Scenario.flat_start) ["b.zip"] = inr [Byte.x00])
    by (vm_compute; reflexivity).
  assert (H2 : zip_members Scenario.git_world [Byte.x00] = None) by (vm_compute; reflexivity).
  assert (H3 : mkdtemp Scenario.git_world Scenario.flat_start =
    ({| st_fs := <[["tmp"; "tmp0"] := NDir]> (st_fs Scenario.flat_start); st_names := 1 |},
     inr ["tmp"; "tmp0"])) by (vm_compute; reflexivity).
  split; [exact H1|]. split; [exact H2|]. split; [exact H3|].
  split; [exact flat_start_parent_closed|].
  exact (analyze_zip_bad_archive _ default_wrapper _ _ _ _ _ H1 H2 H3 flat_start_parent_closed).
Defined.



(** The hypotheses of [percent_of_two_decimals] hold on a concrete input. *)
Lemma percent_of_two_decimals_witness :
  (0 <= 1 <= 8)%Z /\ (0 < 8)%Z /\ (100 * 8 < 2 ^ 53)%Z /\ (1 * 10000 = 1250 * 8)%Z /\
  percent_of 1 8 = F.fl (inject_Z 1250 / 100).
Proof.
  split; [lia|]. split; [lia|]. split; [lia|]. split; [lia|].
  apply percent_of_two_decimals; lia.
Defined.


(** The hypotheses of [aggregate_first_bad_size] hold on a concrete input. *)
Lemma aggregate_first_bad_size_witness :
  Forall (fun kv => exists z, get_size kv.2 = inr z) [("A", JObj [("size", JInt 1)])] /\
  get_size (JObj [("size", JStr "x")]) = inl TypeError /\
  aggregate ∅ [] (JObj ([("A", JObj [("size", JInt 1)])] ++
                        ("B", JObj [("size", JStr "x")]) :: [("C", JArr [])])) = inl TypeError.
Proof.
  assert (Hp : Forall (fun kv => exists z, get_size kv.2 = inr z)
                 [("A", JObj [("size", JInt 1)])])
    by (repeat constructor; exists 1%Z; reflexivity).
  assert (Hv : get_size (JObj [("size", JStr "x")]) = inl TypeError) by reflexivity.
  split; [exact Hp|]. split; [exact Hv|].
  exact (aggregate_first_bad_size _ _ _ _ _ _ _ Hp Hv).
Defined.

(** The hypotheses of [aggregate_first_bad_files] hold on a concrete input. *)
Lemma aggregate_first_bad_files_witness :
  Forall (fun kv => exists z, get_size kv.2 = inr z)
    ([("A", JObj [("size", JInt 1)])] ++ ("B", JObj [("size", JInt 2); ("files", JInt 3)]) :: []) /\
  Forall (fun kv => exists fv files ln, py_get kv.2 "files" (JArr []) = inr fv /\
            py_iter fv = inr files /\ sum_lines ∅ [] files = inr ln)
    [("A", JObj [("size", JInt 1)])] /\
  py_get (JObj [("size", JInt 2); ("files", JInt 3)]) "files" (JArr []) = inr (JInt 3) /\
  py_iter (JInt 3) = inl TypeError /\
  aggregate ∅ [] (JObj ([("A", JObj [("size", JInt 1)])] ++
                        ("B", JObj [("size", JInt 2); ("files", JInt 3)]) :: [])) = inl TypeError.
Proof.
  assert (H1 : Forall (fun kv => exists z, get_size kv.2 = inr z)
    ([("A", JObj [("size", JInt 1)])] ++ ("B", JObj [("size", JInt 2); ("files", JInt 3)]) :: []))
    by (repeat constructor; eexists; reflexivity).
  assert (H2 : Forall (fun kv => exists fv files ln, py_get kv.2 "files" (JArr []) = inr fv /\
            py_iter fv = inr files /\ sum_lines ∅ [] files = inr ln)
    [("A", JObj [("size", JInt 1)])])
    by (repeat constructor; do 3 eexists; repeat split; reflexivity).
  assert (H3 : py_get (JObj [("size", JInt 2); ("files", JInt 3)]) "files" (JArr []) = inr (JInt 3))
    by reflexivity.
  assert (H4 : py_iter (JInt 3) = inl TypeError) by reflexivity.
  split; [exact H1|]. split; [exact H2|]. split; [exact H3|]. split; [exact H4|].
  exact (aggregate_first_bad_files _ _ _ _ _ _ _ H1 H2 (or_intror (or_introl (ex_intro _ _ (conj H3 H4))))).
Defined.

